(** * Concentrator: time-bucketed trace statistics

    A shallow embedding of [pkg/trace/stats/concentrator.go] and the
    properties of its bucket store: bucket-timestamp alignment and the
    lateness clamp, the retention sweep of [flushNow], the watermark
    [oldestTs], span eligibility and the peer-tag merge.

    Conventions.
    - Go's [int64] is a [Z] kept in range by [wrap64]; [int] is taken to be
      64 bits wide (amd64, arm64).  Go's [%] truncates toward zero: [Z.rem].
    - A Go [string] is a byte sequence: [string] (a list of [Ascii.ascii]).
    - A Go map is a [gmap]; iteration order, which Go leaves unspecified, is
      the order of [map_to_list], or a parameter where the result depends
      on it ([flushNowIn]).
    - A run-time panic (integer division by zero, a ticker period that is
      not positive, a slice capacity [make] refuses) is the outcome [Panic].
    - A Go pointer that may be nil is an [option]. *)

From Stdlib Require Import ZArith Lia.
From stdpp Require Import base option list sorting strings gmap fin_maps.

Local Open Scope Z_scope.

(** ** Machine integers *)

Module Int64.

Definition min_int64 : Z := - 2 ^ 63.
Definition max_int64 : Z := 2 ^ 63 - 1.

Definition in_range (z : Z) : Prop := min_int64 <= z <= max_int64.

(** Two's complement wrap-around of an [int64] result. *)
Definition wrap64 (z : Z) : Z := (z + 2 ^ 63) mod 2 ^ 64 - 2 ^ 63.

Definition add (a b : Z) : Z := wrap64 (a + b).
Definition sub (a b : Z) : Z := wrap64 (a - b).
Definition mul (a b : Z) : Z := wrap64 (a * b).

(** [uint64(x)] of an [int64] *)
Definition to_uint64 (z : Z) : Z := z mod 2 ^ 64.

End Int64.

Import Int64.

(** ** Outcomes of code that may panic *)

Inductive outcome (A : Type) : Type :=
  | Done (a : A)
  | Panic.
Arguments Done {A} a.
Arguments Panic {A}.

Definition obind {A B} (m : outcome A) (k : A -> outcome B) : outcome B :=
  match m with
  | Done a => k a
  | Panic => Panic
  end.

Global Instance outcome_ret : MRet outcome := fun _ a => Done a.
Global Instance outcome_bind : MBind outcome := fun _ _ k m => obind m k.

(** Monadic [for ... range] over a slice: the body threads a state and
    emits events, a panic aborts the loop. *)
Fixpoint rangeM {S X E : Type} (body : S -> X -> outcome (S * list E))
    (xs : list X) (st : S) : outcome (S * list E) :=
  match xs with
  | [] => Done (st, [])
  | x :: rest =>
      '(st1, ev1) ← body st x;
      '(st2, ev2) ← rangeM body rest st1;
      Done (st2, ev1 ++ ev2)
  end.

(** Integer remainder; a zero divisor panics. *)
Definition rem64 (a b : Z) : outcome Z :=
  if b =? 0 then Panic else Done (Z.rem a b).

(** ** Peer tags *)

Module PeerTags.

(** One round of the dedup loop of [preparePeerTags]: [seen] is the set of
    tags met so far, [deduped] the slice being appended to. *)
Definition dedupStep (st : gset string * list string) (t : string)
  : gset string * list string :=
  let '(seen, deduped) := st in
  if decide (t ∈ seen) then (seen, deduped)
  else ({[ t ]} ∪ seen, deduped ++ [t]).

Definition dedupLoop (tags : list string) : gset string * list string :=
  foldl dedupStep (∅, []) tags.

(** [sort.Strings]: ascending byte-wise order.  The input of the call has no
    duplicates and the order is total, so the result does not depend on
    the sorting algorithm. *)
Definition sortStrings (l : list string) : list string :=
  merge_sort String.le l.

(** [preparePeerTags]; the nil slice it returns on empty input is []. *)
Definition preparePeerTags (tags : list string) : list string :=
  if decide (length tags = 0%nat) then []
  else sortStrings (snd (dedupLoop tags)).

End PeerTags.

(** ** The [strings] package of the Go standard library *)

Module strings.

Definition isASCII (s : string) : bool :=
  forallb (fun a => (Ascii.N_of_ascii a <? 128)%N) (String.list_ascii_of_string s).

Definition lowerByte (a : Ascii.ascii) : Ascii.ascii :=
  let n := Ascii.N_of_ascii a in
  if ((65 <=? n) && (n <=? 90))%N then Ascii.ascii_of_N (n + 32) else a.

Fixpoint mapBytes (f : Ascii.ascii -> Ascii.ascii) (s : string) : string :=
  match s with
  | EmptyString => EmptyString
  | String a r => String (f a) (mapBytes f r)
  end.

(** [strings.ToLower]: an ASCII-only string is lowered byte by byte; any
    other string goes through the Unicode tables, here [unicodeLower]. *)
Definition ToLower (unicodeLower : string -> string) (s : string) : string :=
  if isASCII s then mapBytes lowerByte s else unicodeLower s.

End strings.

(** ** Data model *)

Module PayloadAggregationKey.
Record t : Type := mk {
  Env : string;
  Hostname : string;
  Version : string;
  ContainerID : string;
  GitCommitSha : string;
  ImageTag : string
}.

Global Instance eq_dec : EqDecision t.
Proof. solve_decision. Defined.

Definition to_tuple (k : t) :=
  (Env k, Hostname k, Version k, ContainerID k, GitCommitSha k, ImageTag k).
Definition of_tuple (p : string * string * string * string * string * string) : t :=
  let '(e, h, v, c, g, i) := p in mk e h v c g i.

Global Instance countable : Countable t.
Proof. apply (inj_countable' to_tuple of_tuple). by intros []. Defined.
End PayloadAggregationKey.

Module pb.

(** [pb.Span]: the fields the concentrator reads; [Metrics] is read by the
    [traceutil] predicates only and kept abstract. *)
Module Span.
Record t {Mx : Type} : Type := mk {
  Start : Z;
  Duration : Z;
  Meta : gmap string string;
  Metrics : Mx
}.
Arguments t : clear implicits.
Arguments mk {Mx}.
End Span.

Module TraceChunk.
Record t {Mx : Type} : Type := mk {
  Spans : list (Span.t Mx);
  Origin : string
}.
Arguments t : clear implicits.
Arguments mk {Mx}.
End TraceChunk.

Module ClientStatsPayload.
Record t {CSB : Type} : Type := mk {
  Env : string;
  Hostname : string;
  ContainerID : string;
  Version : string;
  GitCommitSha : string;
  ImageTag : string;
  Stats : list CSB;
  Tags : list string
}.
Arguments t : clear implicits.
Arguments mk {CSB}.
End ClientStatsPayload.

Module StatsPayload.
Record t {CSB : Type} : Type := mk {
  Stats : list (ClientStatsPayload.t CSB);
  AgentHostname : string;
  AgentEnv : string;
  AgentVersion : string
}.
Arguments t : clear implicits.
Arguments mk {CSB}.
End StatsPayload.

End pb.

Module traceutil.
Module ProcessedTrace.
Record t {Mx : Type} : Type := mk {
  TraceChunk : pb.TraceChunk.t Mx;
  Root : option (pb.Span.t Mx);
  TracerEnv : string;
  AppVersion : string;
  TracerHostname : string;
  GitCommitSha : string;
  ImageTag : string
}.
Arguments t : clear implicits.
Arguments mk {Mx}.
End ProcessedTrace.
End traceutil.

Module config.
Module AgentConfig.
(** The fields [NewConcentrator] reads; [BucketInterval] in nanoseconds. *)
Record t : Type := mk {
  BucketInterval : Z;
  DefaultEnv : string;
  Hostname : string;
  AgentVersion : string;
  PeerServiceAggregation : bool;
  PeerTagsAggregation : bool;
  ComputeStatsBySpanKind : bool;
  PeerTags : list string
}.
End AgentConfig.
End config.

(** [RawBucket]: the aggregator's own state is [data]; the concentrator
    reads and writes the side table [containerTagsByID]. *)
Module RawBucket.
Record t {D : Type} : Type := mk {
  data : D;
  containerTagsByID : gmap string (list string)
}.
Arguments t : clear implicits.
Arguments mk {D}.

Definition setContainerTags {D} (b : t D) (id : string) (tags : list string) : t D :=
  mk (data b) (<[id := tags]> (containerTagsByID b)).
End RawBucket.

Module Input.
Record t {Mx : Type} : Type := mk {
  Traces : list (traceutil.ProcessedTrace.t Mx);
  ContainerID : string;
  ContainerTags : list string
}.
Arguments t : clear implicits.
Arguments mk {Mx}.
End Input.

(** [defaultBufferLen] *)
Definition defaultBufferLen : Z := 2.

(** The [Concentrator] without its channel, wait group, mutex, writer and
    statsd client: every operation below runs with the mutex held. *)
Module Concentrator.
Record t {D : Type} : Type := mk {
  bsize : Z;
  oldestTs : Z;
  bufferLen : Z;
  buckets : gmap Z (RawBucket.t D);
  agentEnv : string;
  agentHostname : string;
  agentVersion : string;
  peerTagsAggregation : bool;
  computeStatsBySpanKind : bool;
  peerTagKeys : list string
}.
Arguments t : clear implicits.
Arguments mk {D}.

Definition setBuckets {D} (c : t D) (bs : gmap Z (RawBucket.t D)) : t D :=
  mk (bsize c) (oldestTs c) (bufferLen c) bs (agentEnv c) (agentHostname c)
     (agentVersion c) (peerTagsAggregation c) (computeStatsBySpanKind c)
     (peerTagKeys c).

Definition setOldestTs {D} (c : t D) (ts : Z) : t D :=
  mk (bsize c) ts (bufferLen c) (buckets c) (agentEnv c) (agentHostname c)
     (agentVersion c) (peerTagsAggregation c) (computeStatsBySpanKind c)
     (peerTagKeys c).

Definition setPeerTagKeys {D} (c : t D) (keys : list string) : t D :=
  mk (bsize c) (oldestTs c) (bufferLen c) (buckets c) (agentEnv c)
     (agentHostname c) (agentVersion c) (peerTagsAggregation c)
     (computeStatsBySpanKind c) keys.
End Concentrator.

Import Concentrator.

(** ** The concentrator's operations *)

Section concentrator.

(** Types owned by other packages: the metrics map of a span, the sampling
    weight (a float64), [pb.ClientStatsBucket] and the aggregator state of
    a [RawBucket]. *)
Context {Mx W CSB D : Type}.

Local Abbreviation Span := (pb.Span.t Mx).
Local Abbreviation Key := PayloadAggregationKey.t.
Local Abbreviation Bucket := (RawBucket.t D).
Local Abbreviation Conc := (Concentrator.t D).
Local Abbreviation Payload := (pb.StatsPayload.t CSB).

(** Collaborators outside this file: the Unicode tables of [strings], the
    [traceutil] span predicates, [weight], the bucket aggregator
    ([NewRawBucket], [HandleSpan], [Export]) and the peer tags read from the
    embedded [peer_tags.ini]. *)
Variable unicodeLower : string -> string.
Variables HasTopLevel IsMeasured IsPartialSnapshot : Span -> bool.
Variable weight : option Span -> W.
Variable NewRawBucket : Z -> Z -> Bucket.
Variable HandleSpan :
  Bucket -> Span -> W -> bool -> string -> Key -> bool -> list string -> Bucket.
Variable Export : Bucket -> gmap Key CSB.
Variable defaultPeerTags : list string.

(** [alignTs] returns the timestamp truncated to the bucket size. *)
Definition alignTs (ts bsize : Z) : outcome Z :=
  r ← rem64 ts bsize; Done (Int64.sub ts r).

(** [NewConcentrator]; [now] is [now.UnixNano()]. *)
Definition NewConcentrator (conf : config.AgentConfig.t) (now : Z) : outcome Conc :=
  let bsize := config.AgentConfig.BucketInterval conf in
  oldest ← alignTs now bsize;
  let aggregate := config.AgentConfig.PeerServiceAggregation conf
                   || config.AgentConfig.PeerTagsAggregation conf in
  let c := Concentrator.mk bsize oldest defaultBufferLen ∅
             (config.AgentConfig.DefaultEnv conf)
             (config.AgentConfig.Hostname conf)
             (config.AgentConfig.AgentVersion conf)
             aggregate
             (config.AgentConfig.ComputeStatsBySpanKind conf)
             [] in
  Done (if aggregate
        then setPeerTagKeys c
               (PeerTags.preparePeerTags
                  (defaultPeerTags ++ config.AgentConfig.PeerTags conf))
        else c).

(** [computeStatsForSpanKind]; a key absent from [Meta] reads as "". *)
Definition computeStatsForSpanKind (s : Span) : bool :=
  let k := strings.ToLower unicodeLower (default "" (pb.Span.Meta s !! "span.kind")) in
  if decide (k = "server") then true
  else if decide (k = "consumer") then true
  else if decide (k = "client") then true
  else if decide (k = "producer") then true
  else false.

(** One call of [b.HandleSpan], as the aggregator receives it; [hc_bucket]
    is the key of the bucket [b] in the bucket map. *)
Record HandleSpanCall : Type := mkCall {
  hc_bucket : Z;
  hc_span : Span;
  hc_weight : W;
  hc_isTop : bool;
  hc_origin : string;
  hc_aggKey : Key;
  hc_peerTagsAggregation : bool;
  hc_peerTagKeys : list string
}.

(** The bucket [addNow] hands the span to: the one stored under [btime], or
    a new one, seeded with the container tags. *)
Definition getOrCreate (c : Conc) (btime : Z) (containerID : string)
    (containerTags : list string) : Bucket :=
  match buckets c !! btime with
  | Some b => b
  | None =>
      let b := NewRawBucket (to_uint64 btime) (to_uint64 (bsize c)) in
      if negb (String.eqb containerID "") && (0 <? length containerTags)%nat
      then RawBucket.setContainerTags b containerID containerTags
      else b
  end.

(** The body of the span loop of [addNow]. *)
Definition addSpan (w : W) (origin : string) (aggKey : Key)
    (containerID : string) (containerTags : list string)
    (c : Conc) (s : Span) : outcome (Conc * list HandleSpanCall) :=
  let isTop := HasTopLevel s in
  let eligibleSpanKind := computeStatsBySpanKind c && computeStatsForSpanKind s in
  if negb (isTop || IsMeasured s || eligibleSpanKind) then Done (c, [])
  else if IsPartialSnapshot s then Done (c, [])
  else
    let end_ := Int64.add (pb.Span.Start s) (pb.Span.Duration s) in
    r ← rem64 end_ (bsize c);
    let btime := Int64.sub end_ r in
    let btime := if btime <? oldestTs c then oldestTs c else btime in
    let b := getOrCreate c btime containerID containerTags in
    let b := HandleSpan b s w isTop origin aggKey
               (peerTagsAggregation c) (peerTagKeys c) in
    Done (setBuckets c (<[btime := b]> (buckets c)),
          [mkCall btime s w isTop origin aggKey
             (peerTagsAggregation c) (peerTagKeys c)]).

(** The bucket timestamp of lines 242-248 of the loop body, for a bucket
    width other than zero (where [%] does not panic and the subtraction
    cannot overflow). *)
Definition codeBucketTime (c : Conc) (s : Span) : Z :=
  let e := Int64.add (pb.Span.Start s) (pb.Span.Duration s) in
  let btime := e - Z.rem e (bsize c) in
  if btime <? oldestTs c then oldestTs c else btime.

(** [addNow] *)
Definition addNow (pt : traceutil.ProcessedTrace.t Mx) (containerID : string)
    (containerTags : list string) (c : Conc)
  : outcome (Conc * list HandleSpanCall) :=
  let hostname :=
    if String.eqb (traceutil.ProcessedTrace.TracerHostname pt) ""
    then agentHostname c else traceutil.ProcessedTrace.TracerHostname pt in
  let env :=
    if String.eqb (traceutil.ProcessedTrace.TracerEnv pt) ""
    then agentEnv c else traceutil.ProcessedTrace.TracerEnv pt in
  let w := weight (traceutil.ProcessedTrace.Root pt) in
  let aggKey :=
    PayloadAggregationKey.mk env hostname
      (traceutil.ProcessedTrace.AppVersion pt) containerID
      (traceutil.ProcessedTrace.GitCommitSha pt)
      (traceutil.ProcessedTrace.ImageTag pt) in
  rangeM
    (addSpan w (pb.TraceChunk.Origin (traceutil.ProcessedTrace.TraceChunk pt))
       aggKey containerID containerTags)
    (pb.TraceChunk.Spans (traceutil.ProcessedTrace.TraceChunk pt)) c.

(** [Add] *)
Definition Add (t : Input.t Mx) (c : Conc) : outcome (Conc * list HandleSpanCall) :=
  rangeM
    (fun c trace => addNow trace (Input.ContainerID t) (Input.ContainerTags t) c)
    (Input.Traces t) c.

(** *** Flushing *)

(** [now-int64(c.bufferLen)*c.bsize], the right-hand side of the retention
    test of [flushNow]. *)
Definition flushCutoff (c : Conc) (now : Z) : Z :=
  Int64.sub now (Int64.mul (bufferLen c) (bsize c)).

(** The retention test: the bucket at [ts] is skipped by the sweep. *)
Definition retained (c : Conc) (now : Z) (force : bool) (ts : Z) : bool :=
  negb force && (flushCutoff c now <? ts).

(** The timestamps among [tss] that fail the retention test. *)
Definition flushedOf (c : Conc) (now : Z) (force : bool) (tss : list Z) : list Z :=
  filter (fun ts => retained c now force ts = false) tss.

(** State of the sweep: the result map [m], the collected container tags,
    the bucket map being emptied, and the timestamps logged by
    [log.Debugf("Flushing bucket %d", ts)], oldest entry first. *)
Record Sweep : Type := mkSweep {
  sw_m : gmap Key (list CSB);
  sw_containerTagsByID : gmap string (list string);
  sw_buckets : gmap Z Bucket;
  sw_flushed : list Z
}.

(** The body of the loop over [srb.Export()]. *)
Definition exportStep (srb : Bucket)
    (acc : gmap Key (list CSB) * gmap string (list string)) (kb : Key * CSB)
  : gmap Key (list CSB) * gmap string (list string) :=
  let '(m, tags) := acc in
  let '(k, b) := kb in
  (<[k := default [] (m !! k) ++ [b]]> m,
   match RawBucket.containerTagsByID srb !! PayloadAggregationKey.ContainerID k with
   | Some ctags => <[PayloadAggregationKey.ContainerID k := ctags]> tags
   | None => tags
   end).

(** The body of the loop over [c.buckets]. *)
Definition sweepStep (c : Conc) (now : Z) (force : bool)
    (st : Sweep) (e : Z * Bucket) : Sweep :=
  let '(ts, srb) := e in
  if retained c now force ts then st
  else
    let '(m, tags) :=
      foldl (exportStep srb) (sw_m st, sw_containerTagsByID st)
        (map_to_list (Export srb)) in
    mkSweep m tags (delete ts (sw_buckets st)) (sw_flushed st ++ [ts]).

(** The locked sweep over the entries [entries] of the bucket map. *)
Definition sweepOver (c : Conc) (now : Z) (force : bool)
    (entries : list (Z * Bucket)) : Sweep :=
  foldl (sweepStep c now force) (mkSweep ∅ ∅ (buckets c) []) entries.

Definition sweep (c : Conc) (now : Z) (force : bool) : Sweep :=
  sweepOver c now force (map_to_list (buckets c)).

(** [alignTs(now, c.bsize) - int64(c.bufferLen-1)*c.bsize] *)
Definition newOldestTs (c : Conc) (now : Z) : outcome Z :=
  a ← alignTs now (bsize c);
  Done (Int64.sub a (Int64.mul (Int64.sub (bufferLen c) 1) (bsize c))).

(** The update of the watermark, lines 297-300: it moves to the candidate
    only when the candidate is greater. *)
Definition advance (c : Conc) (candidate : Z) : Conc :=
  if oldestTs c <? candidate then setOldestTs c candidate else c.

(** The unlocked assembly of the payload from [m]. *)
Definition assemble (m : gmap Key (list CSB)) (tags : gmap string (list string))
  : list (pb.ClientStatsPayload.t CSB) :=
  (fun ks : Key * list CSB =>
     let '(k, s) := ks in
     pb.ClientStatsPayload.mk
       (PayloadAggregationKey.Env k)
       (PayloadAggregationKey.Hostname k)
       (PayloadAggregationKey.ContainerID k)
       (PayloadAggregationKey.Version k)
       (PayloadAggregationKey.GitCommitSha k)
       (PayloadAggregationKey.ImageTag k)
       s
       (default [] (tags !! PayloadAggregationKey.ContainerID k)))
  <$> map_to_list m.

(** [flushNow]: the pointer it returns and the concentrator afterwards. *)
Definition flushNow (now : Z) (force : bool) (c : Conc)
  : outcome (option Payload * Conc) :=
  let st := sweep c now force in
  let c1 := setBuckets c (sw_buckets st) in
  candidate ← newOldestTs c1 now;
  let c2 := advance c1 candidate in
  let sb := assemble (sw_m st) (sw_containerTagsByID st) in
  Done (Some (pb.StatsPayload.mk sb (agentHostname c2) (agentEnv c2) (agentVersion c2)),
        c2).

(** [Flush]; [clock] is the reading of [time.Now().UnixNano()]. *)
Definition Flush (clock : Z) (force : bool) (c : Conc)
  : outcome (option Payload * Conc) :=
  flushNow clock force c.

(** [Run] along one schedule: the clock readings of the ticks that fire
    before the exit channel closes, then the reading at exit.  The events
    are the arguments of [Writer.Write], in order.  [time.NewTicker]
    panics on a period that is not positive, before any flush. *)
Definition Run (ticks : list Z) (exitClock : Z) (c : Conc)
  : outcome (Conc * list (option Payload)) :=
  if bsize c <=? 0 then Panic
  else
    '(c1, written) ←
       rangeM (fun c clock => '(p, c') ← Flush clock false c; Done (c', [p])) ticks c;
    '(p, c2) ← Flush exitClock true c1;
    Done (c2, written ++ [p]).

(** *** Traces of operations *)

Inductive Op : Type :=
  | OpAdd (t : Input.t Mx)
  | OpFlush (clock : Z) (force : bool).

Definition step (c : Conc) (o : Op) : outcome Conc :=
  match o with
  | OpAdd t => '(c', _) ← Add t c; Done c'
  | OpFlush clock force => '(_, c') ← Flush clock force c; Done c'
  end.

Fixpoint run (ops : list Op) (c : Conc) : outcome Conc :=
  match ops with
  | [] => Done c
  | o :: rest => c' ← step c o; run rest c'
  end.

(** *** Specification-side definitions

    Written from the wording of the specification, to be compared with the
    operations above. *)

(** [floor(e, w)]: the largest multiple of [w] that is at most [e]. *)
Definition floorTo (e w : Z) : Z := w * (e / w).

(** The end time of a span, [s.Start + s.Duration]. *)
Definition endTime (s : Span) : Z := Int64.add (pb.Span.Start s) (pb.Span.Duration s).

(** The bucket timestamp the specification assigns to a span. *)
Definition specBucketTime (c : Conc) (s : Span) : Z :=
  if decide (oldestTs c <= floorTo (endTime s) (bsize c))
  then floorTo (endTime s) (bsize c) else oldestTs c.

(** The span kinds that make a span eligible. *)
Definition eligibleKinds : list string := ["server"; "consumer"; "client"; "producer"].

(** The [span.kind] of a span, lowercased. *)
Definition lowerKind (s : Span) : string :=
  strings.ToLower unicodeLower (default "" (pb.Span.Meta s !! "span.kind")).

(** The eligibility rule of the specification. *)
Definition specEligible (c : Conc) (s : Span) : bool :=
  negb (IsPartialSnapshot s)
  && (HasTopLevel s || IsMeasured s
      || (computeStatsBySpanKind c && bool_decide (lowerKind s ∈ eligibleKinds))).

(** Operations that leave everything but the bucket map untouched. *)
Definition sameSettings (c c' : Conc) : Prop :=
  c' = setBuckets c (buckets c').

(** What ingestion does to the bucket store: settings and watermark stay,
    every call of [HandleSpan] goes to the bucket at the computed
    timestamp, which is in the map afterwards, no key disappears and every
    new key is the bucket of some call. *)
Definition ingested (c c' : Conc) (calls : list HandleSpanCall) : Prop :=
  sameSettings c c'
  /\ Forall (fun call => hc_bucket call = codeBucketTime c (hc_span call)
                         /\ is_Some (buckets c' !! hc_bucket call)) calls
  /\ (forall ts, is_Some (buckets c !! ts) -> is_Some (buckets c' !! ts))
  /\ (forall ts, is_Some (buckets c' !! ts) ->
        is_Some (buckets c !! ts) \/ exists call, call ∈ calls /\ hc_bucket call = ts).

(** A clock reading for which the watermark candidate does not overflow:
    any reading not within one bucket width of the least [int64]. *)
Definition clockOk (bsize : Z) (o : Op) : Prop :=
  match o with
  | OpAdd _ => True
  | OpFlush clock _ => min_int64 + bsize <= clock <= max_int64
  end.

(** Alignment of the bucket store: the watermark and every key of the
    bucket map are multiples of the bucket width. *)
Definition aligned (c : Conc) : Prop :=
  (bsize c | oldestTs c)
  /\ forall ts b, buckets c !! ts = Some b -> (bsize c | ts).

End concentrator.

(** ** A small instance of the collaborators

    Used to evaluate the operations on concrete inputs: the metrics of a
    span are three flags, every weight is 1, and a bucket counts the spans
    it handled per aggregation key, exporting one record per key. *)

Module Sample.

Record Flags : Type := mkFlags {
  topLevel : bool;
  measured : bool;
  partialSnapshot : bool
}.

Record Counts : Type := mkCounts {
  cStart : Z;
  cDuration : Z;
  cHits : gmap PayloadAggregationKey.t nat
}.

Record Stat : Type := mkStat {
  rStart : Z;
  rDuration : Z;
  rHits : nat
}.

Definition HasTopLevel (s : pb.Span.t Flags) : bool := topLevel (pb.Span.Metrics s).
Definition IsMeasured (s : pb.Span.t Flags) : bool := measured (pb.Span.Metrics s).
Definition IsPartialSnapshot (s : pb.Span.t Flags) : bool :=
  partialSnapshot (pb.Span.Metrics s).

Definition weight (root : option (pb.Span.t Flags)) : Z := 1.

Definition NewRawBucket (ts bsize : Z) : RawBucket.t Counts :=
  RawBucket.mk (mkCounts ts bsize ∅) ∅.

Definition HandleSpan (b : RawBucket.t Counts) (s : pb.Span.t Flags) (w : Z)
    (isTop : bool) (origin : string) (aggKey : PayloadAggregationKey.t)
    (peerTagsAggregation : bool) (peerTagKeys : list string)
  : RawBucket.t Counts :=
  let d := RawBucket.data b in
  RawBucket.mk
    (mkCounts (cStart d) (cDuration d)
       (<[aggKey := S (default 0%nat (cHits d !! aggKey))]> (cHits d)))
    (RawBucket.containerTagsByID b).

Definition Export (b : RawBucket.t Counts) : gmap PayloadAggregationKey.t Stat :=
  let d := RawBucket.data b in
  mkStat (cStart d) (cDuration d) <$> cHits d.

Definition unicodeLower (s : string) : string := s.

Definition defaultPeerTags : list string := ["_dd.base_service"].

(** A configuration with 10-nanosecond buckets. *)
Definition conf : config.AgentConfig.t :=
  config.AgentConfig.mk 10 "prod" "agent-host" "7.50.0" false true true ["peer.zone"].

Definition span (start duration : Z) (kind : string) (f : Flags) : pb.Span.t Flags :=
  pb.Span.mk start duration {[ "span.kind" := kind ]} f.

Definition trace (spans : list (pb.Span.t Flags)) : traceutil.ProcessedTrace.t Flags :=
  traceutil.ProcessedTrace.mk (pb.TraceChunk.mk spans "lambda") None "" "v1" "" "" "".

Definition input (spans : list (pb.Span.t Flags)) : Input.t Flags :=
  Input.mk [trace spans] "" [].

Definition newConcentrator (now : Z) : outcome (Concentrator.t Counts) :=
  NewConcentrator defaultPeerTags conf now.

(** The concentrator [newConcentrator 100] returns. *)
Definition started : Concentrator.t Counts :=
  Concentrator.mk 10 100 2 ∅ "prod" "agent-host" "7.50.0" true true
    ["_dd.base_service"; "peer.zone"].

(** A top-level span ending at 105, a measured one ending at 75 (before the
    watermark of [started]), a client span, and two spans that do not
    count: a partial snapshot and a span of kind internal. *)
Definition topSpan : pb.Span.t Flags := span 100 5 "" (mkFlags true false false).
Definition lateSpan : pb.Span.t Flags := span 70 5 "" (mkFlags false true false).
Definition clientSpan : pb.Span.t Flags := span 110 7 "Client" (mkFlags false false false).
Definition partialSpan : pb.Span.t Flags := span 100 5 "server" (mkFlags true true true).
Definition internalSpan : pb.Span.t Flags := span 100 5 "internal" (mkFlags false false false).

(** The aggregation key of the spans of [trace]. *)
Definition key : PayloadAggregationKey.t :=
  PayloadAggregationKey.mk "prod" "agent-host" "v1" "" "" "".

(** [started] after the ingestion of [topSpan]: one bucket, at 100. *)
Definition loaded : Concentrator.t Counts :=
  Concentrator.setBuckets started
    {[ 100 := RawBucket.mk (mkCounts 100 10 {[ key := 1%nat ]}) ∅ ]}.

Definition add (t : Input.t Flags) (c : Concentrator.t Counts) :=
  Add unicodeLower HasTopLevel IsMeasured IsPartialSnapshot weight
    NewRawBucket HandleSpan t c.

Definition flush (now : Z) (force : bool) (c : Concentrator.t Counts) :=
  flushNow Export now force c.

Definition addTrace (pt : traceutil.ProcessedTrace.t Flags) (c : Concentrator.t Counts) :=
  addNow unicodeLower HasTopLevel IsMeasured IsPartialSnapshot weight
    NewRawBucket HandleSpan pt "" [] c.

Definition eligible (c : Concentrator.t Counts) (s : pb.Span.t Flags) : bool :=
  specEligible unicodeLower HasTopLevel IsMeasured IsPartialSnapshot c s.

Definition runLoop (ticks : list Z) (exitClock : Z) (c : Concentrator.t Counts) :=
  Run Export ticks exitClock c.

Definition runOps (ops : list (Op (Mx := Flags))) (c : Concentrator.t Counts) :=
  run unicodeLower HasTopLevel IsMeasured IsPartialSnapshot weight
    NewRawBucket HandleSpan Export ops c.

End Sample.

(** ** Further operations of the file *)

(** [strings.Split(s, sep)] for a one-byte separator: the pieces of [s]
    between the occurrences of [sep], one more than there are
    occurrences. *)
Fixpoint splitByte (sep : Ascii.ascii) (s : string) : list string :=
  match s with
  | EmptyString => [EmptyString]
  | String a r =>
      if Ascii.eqb a sep then EmptyString :: splitByte sep r
      else match splitByte sep r with
           | [] => [String a EmptyString]
           | w :: ws => String a w :: ws
           end
  end.

(** [strings.Join(pieces, sep)] for a one-byte separator. *)
Fixpoint joinByte (sep : Ascii.ascii) (pieces : list string) : string :=
  match pieces with
  | [] => EmptyString
  | [w] => w
  | w :: ws => String.append w (String sep (joinByte sep ws))
  end.

(** The byte [sep] occurs in [s]. *)
Fixpoint hasByte (sep : Ascii.ascii) (s : string) : bool :=
  match s with
  | EmptyString => false
  | String a r => Ascii.eqb a sep || hasByte sep r
  end.

(** The seed of the peer-tag catalog, and the separator of its entries. *)
Definition baseServiceTag : string := "_dd.base_service".
Definition comma : Ascii.ascii := Ascii.ascii_of_nat 44.

(** The initializer of [defaultPeerTags].  [section] is [None] when
    [ini.Load] fails; otherwise it holds the values of the keys of the
    section [dd.apm.peer.tags], in order (no key when the section is
    absent). *)
Definition initDefaultPeerTags (section : option (list string)) : list string :=
  let tags := [baseServiceTag] in
  match section with
  | None => tags
  | Some values =>
      PeerTags.sortStrings
        (foldl (fun tags value => tags ++ splitByte comma value) tags values)
  end.

(** The fields of [config.AgentConfig] that [NewStatsInput] reads. *)
Module FeatureConfig.
Record t : Type := mk {
  Features : gset string;
  FargateOrchestrator : string
}.
End FeatureConfig.

Section further.

Context {Mx W CSB D : Type}.

Local Abbreviation Span := (pb.Span.t Mx).
Local Abbreviation Key := PayloadAggregationKey.t.
Local Abbreviation Conc := (Concentrator.t D).

(** [config.OrchestratorUnknown], and the largest capacity [make] grants a
    slice of processed traces before it panics. *)
Variable OrchestratorUnknown : string.
Variable maxChunks : Z.

(** [NewStatsInput].  [make([]T, 0, numChunks)] panics when the capacity is
    negative or beyond the allocator's limit; the slice it returns is
    empty. *)
Definition NewStatsInput (numChunks : Z) (containerID : string)
    (clientComputedStats : bool) (conf : FeatureConfig.t) : outcome (Input.t Mx) :=
  if clientComputedStats then Done (Input.mk [] "" [])
  else if (numChunks <? 0) || (maxChunks <? numChunks) then Panic
  else
    let input := Input.mk [] "" [] in
    let enabledCIDStats := bool_decide ("enable_cid_stats" ∈ FeatureConfig.Features conf) in
    let disabledCIDStats := bool_decide ("disable_cid_stats" ∈ FeatureConfig.Features conf) in
    let enableContainers :=
      enabledCIDStats
      || negb (String.eqb (FeatureConfig.FargateOrchestrator conf) OrchestratorUnknown) in
    if enableContainers && negb disabledCIDStats
    then Done (Input.mk (Input.Traces input) containerID (Input.ContainerTags input))
    else Done input.

(** *** Notions used by the further properties *)

(** The aggregation key [addNow] derives for a trace: the tracer's
    environment and hostname, or the agent's where the tracer's are
    empty. *)
Definition aggKeyOf (c : Conc) (pt : traceutil.ProcessedTrace.t Mx)
    (containerID : string) : Key :=
  PayloadAggregationKey.mk
    (if String.eqb (traceutil.ProcessedTrace.TracerEnv pt) ""
     then agentEnv c else traceutil.ProcessedTrace.TracerEnv pt)
    (if String.eqb (traceutil.ProcessedTrace.TracerHostname pt) ""
     then agentHostname c else traceutil.ProcessedTrace.TracerHostname pt)
    (traceutil.ProcessedTrace.AppVersion pt) containerID
    (traceutil.ProcessedTrace.GitCommitSha pt)
    (traceutil.ProcessedTrace.ImageTag pt).

(** The aggregation key a group of the payload stands for. *)
Definition groupKey (g : pb.ClientStatsPayload.t CSB) : Key :=
  PayloadAggregationKey.mk
    (pb.ClientStatsPayload.Env g) (pb.ClientStatsPayload.Hostname g)
    (pb.ClientStatsPayload.Version g) (pb.ClientStatsPayload.ContainerID g)
    (pb.ClientStatsPayload.GitCommitSha g) (pb.ClientStatsPayload.ImageTag g).

(** The entries of the bucket map a flush exports, in sweep order. *)
Definition flushedEntries (c : Conc) (now : Z) (force : bool)
  : list (Z * RawBucket.t D) :=
  filter (fun e => retained c now force e.1 = false) (map_to_list (buckets c)).

(** The records the buckets [entries] export under the key [k], in order. *)
Definition recordsFor (Export : RawBucket.t D -> gmap Key CSB) (k : Key)
    (entries : list (Z * RawBucket.t D)) : list CSB :=
  omap (fun e => Export e.2 !! k) entries.

(** The bucket of the entry [e] can supply the container tags of [id]: it
    has tags for [id] and reports a key with that container ID. *)
Definition tagsSource (Export : RawBucket.t D -> gmap Key CSB) (id : string)
    (e : Z * RawBucket.t D) : Prop :=
  is_Some (RawBucket.containerTagsByID e.2 !! id)
  /\ exists k, is_Some (Export e.2 !! k) /\ PayloadAggregationKey.ContainerID k = id.

(** No bucket lies below the watermark. *)
Definition aboveWatermark (c : Conc) : Prop :=
  forall ts b, buckets c !! ts = Some b -> oldestTs c <= ts.

(** A flush whose clock reading is at or after the epoch. *)
Definition clockAfterEpoch (o : Op (Mx := Mx)) : Prop :=
  match o with
  | OpAdd _ => True
  | OpFlush clock _ => 0 <= clock <= max_int64
  end.

End further.

(** ** The order of the sweep, and ingestion as the specification has it *)

Section sweep_order.

Context {Mx W CSB D : Type}.

Local Abbreviation Span := (pb.Span.t Mx).
Local Abbreviation Key := PayloadAggregationKey.t.
Local Abbreviation Bucket := (RawBucket.t D).
Local Abbreviation Conc := (Concentrator.t D).
Local Abbreviation Payload := (pb.StatsPayload.t CSB).

Variable HasTopLevel : Span -> bool.
Variable NewRawBucket : Z -> Z -> Bucket.
Variable HandleSpan :
  Bucket -> Span -> W -> bool -> string -> Key -> bool -> list string -> Bucket.
Variable Export : Bucket -> gmap Key CSB.

(** The entries among [entries] a flush exports, in the order given. *)
Definition flushedIn (c : Conc) (now : Z) (force : bool)
    (entries : list (Z * Bucket)) : list (Z * Bucket) :=
  filter (fun e => retained c now force e.1 = false) entries.

(** [flushNow] with the range over [c.buckets] meeting the entries of the
    map in the order [entries].  Go leaves that order open: [entries] may be
    any permutation of the entries of the map; [flushNow] above is the case
    [entries = map_to_list (buckets c)]. *)
Definition flushNowIn (entries : list (Z * Bucket)) (now : Z) (force : bool)
    (c : Conc) : outcome (option Payload * Conc) :=
  let st := sweepOver Export c now force entries in
  let c1 := setBuckets c (sw_buckets st) in
  candidate ← newOldestTs c1 now;
  let c2 := advance c1 candidate in
  let sb := assemble (sw_m st) (sw_containerTagsByID st) in
  Done (Some (pb.StatsPayload.mk sb (agentHostname c2) (agentEnv c2) (agentVersion c2)),
        c2).

(** What the specification has [addNow] do with one eligible span: hand it
    to the bucket at the timestamp the specification assigns, creating the
    bucket when the map has none there. *)
Definition specAddSpan (w : W) (origin : string) (aggKey : Key)
    (containerID : string) (containerTags : list string)
    (c : Conc) (s : Span) : Conc :=
  let btime := specBucketTime c s in
  setBuckets c
    (<[btime := HandleSpan (getOrCreate NewRawBucket c btime containerID containerTags)
                  s w (HasTopLevel s) origin aggKey
                  (peerTagsAggregation c) (peerTagKeys c)]> (buckets c)).

End sweep_order.

(** Two more fixtures: [started] after the ingestion of [topSpan] and
    [clientSpan], with one bucket at 100 and one at 110. *)
Module Sample2.

Definition bucketAt (ts : Z) : RawBucket.t Sample.Counts :=
  RawBucket.mk (Sample.mkCounts ts 10 {[ Sample.key := 1%nat ]}) ∅.

Definition twoBuckets : Concentrator.t Sample.Counts :=
  Concentrator.setBuckets Sample.started
    (<[110 := bucketAt 110]> {[ 100 := bucketAt 100 ]}).

End Sample2.

(** * Properties *)

(** ** Facts about the machine integers *)

Section int64_facts.

Lemma wrap64_in_range z : in_range (wrap64 z).
Proof.
  unfold in_range, wrap64, min_int64, max_int64.
  pose proof (Z.mod_pos_bound (z + 2 ^ 63) (2 ^ 64) ltac:(lia)). lia.
Qed.

Lemma wrap64_id z : in_range z -> wrap64 z = z.
Proof.
  unfold in_range, wrap64, min_int64, max_int64. intros Hz.
  rewrite Z.mod_small by lia. lia.
Qed.

(** The truncated remainder lies between zero and the dividend. *)
Lemma rem_between a b :
  b <> 0 -> (0 <= a -> 0 <= Z.rem a b <= a) /\ (a <= 0 -> a <= Z.rem a b <= 0).
Proof.
  intros Hb. split; intros Ha.
  - pose proof (Z.rem_nonneg a b Hb Ha).
    pose proof (Z.rem_bound_pos a b Ha) as Hp.
    pose proof (Z.rem_bound_pos a (- b) Ha) as Hn.
    rewrite Z.rem_opp_r in Hn by lia.
    assert (Z.rem a b <= a); [|lia].
    destruct (Z_lt_le_dec a (Z.abs b)) as [Hlt|Hge].
    + rewrite <- (Z.rem_abs_r a b) by lia. rewrite Z.rem_small; lia.
    + destruct (Z_lt_le_dec 0 b); lia.
  - pose proof (Z.rem_nonpos a b Hb Ha).
    assert (Hopp : 0 <= - a) by lia.
    pose proof (Z.rem_nonneg (- a) b Hb Hopp) as H0.
    rewrite Z.rem_opp_l in H0 by lia.
    assert (a <= Z.rem a b); [|lia].
    destruct (Z_lt_le_dec (- a) (Z.abs b)) as [Hlt|Hge].
    + assert (Z.rem (- a) b = - a) as He.
      { rewrite <- (Z.rem_abs_r (- a) b) by lia. rewrite Z.rem_small; lia. }
      rewrite Z.rem_opp_l in He by lia. lia.
    + pose proof (Z.rem_bound_pos (- a) (Z.abs b) Hopp ltac:(lia)) as Hb'.
      rewrite Z.rem_abs_r, Z.rem_opp_l in Hb' by lia. lia.
Qed.

Lemma sub_rem_in_range a b : in_range a -> b <> 0 -> in_range (a - Z.rem a b).
Proof.
  unfold in_range. intros Ha Hb.
  destruct (rem_between a b Hb) as [Hp Hn].
  unfold min_int64, max_int64 in *.
  destruct (Z_le_gt_dec 0 a); [specialize (Hp ltac:(lia))|specialize (Hn ltac:(lia))]; lia.
Qed.

(** [a - a rem b] is a multiple of [b]. *)
Lemma sub_rem_divide a b : b <> 0 -> (b | a - Z.rem a b).
Proof.
  intros Hb. exists (Z.quot a b).
  pose proof (Z.quot_rem a b Hb). lia.
Qed.

Lemma rem64_done a b : b <> 0 -> rem64 a b = Done (Z.rem a b).
Proof. unfold rem64. intros Hb. destruct (Z.eqb_spec b 0); [lia|done]. Qed.

(** Truncating [a] to a multiple of [b] never overflows. *)
Lemma sub_rem_exact a b :
  in_range a -> b <> 0 -> Int64.sub a (Z.rem a b) = a - Z.rem a b.
Proof. intros Ha Hb. apply wrap64_id, sub_rem_in_range; done. Qed.

End int64_facts.

(** ** The peer-tag merge *)

Section peer_tags.
Import PeerTags.

(** The dedup loop keeps [seen] equal to the set of elements of [deduped],
    never appends a tag twice and appends every tag it meets. *)
Lemma dedupLoop_from tags seen deduped :
  NoDup deduped ->
  (forall x, x ∈ seen <-> x ∈ deduped) ->
  let r := foldl dedupStep (seen, deduped) tags in
  NoDup r.2 /\ (forall x, x ∈ r.2 <-> x ∈ deduped \/ x ∈ tags)
  /\ (forall x, x ∈ r.1 <-> x ∈ r.2).
Proof.
  revert seen deduped. induction tags as [|t tags IH]; intros seen deduped Hnd Hseen.
  - simpl. split; [done|]. split; [|done]. intros x. rewrite elem_of_nil. tauto.
  - simpl. unfold dedupStep at 2. destruct (decide (t ∈ seen)) as [Hin|Hout].
    + destruct (IH seen deduped Hnd Hseen) as (H1 & H2 & H3).
      split; [done|]. split; [|done].
      intros x. rewrite H2, elem_of_cons. split; [tauto|].
      intros [?|[->|?]]; auto. left. by apply Hseen.
    + destruct (IH ({[t]} ∪ seen) (deduped ++ [t])) as (H1 & H2 & H3).
      * apply NoDup_app. split; [done|]. split; [|apply NoDup_singleton].
        intros x Hx ->%list_elem_of_singleton. apply Hout. by apply Hseen.
      * intros x. rewrite elem_of_union, elem_of_singleton, elem_of_app,
          list_elem_of_singleton, Hseen. tauto.
      * split; [done|]. split; [|done].
        intros x. rewrite H2, elem_of_app, list_elem_of_singleton, elem_of_cons.
        tauto.
Qed.

Lemma dedupLoop_spec tags :
  NoDup (dedupLoop tags).2 /\ forall x, x ∈ (dedupLoop tags).2 <-> x ∈ tags.
Proof.
  destruct (dedupLoop_from tags ∅ []) as (H1 & H2 & _).
  - constructor.
  - intros x. rewrite elem_of_nil. set_solver.
  - split; [done|]. intros x. unfold dedupLoop. rewrite H2, elem_of_nil. tauto.
Qed.

Lemma preparePeerTags_perm tags : preparePeerTags tags ≡ₚ (dedupLoop tags).2.
Proof.
  unfold preparePeerTags. destruct (decide (length tags = 0%nat)) as [Hlen|_].
  - apply nil_length_inv in Hlen as ->. done.
  - apply merge_sort_Permutation.
Qed.

Lemma preparePeerTags_elem tags t : t ∈ preparePeerTags tags <-> t ∈ tags.
Proof.
  rewrite (preparePeerTags_perm tags). apply dedupLoop_spec.
Qed.

Lemma preparePeerTags_NoDup tags : NoDup (preparePeerTags tags).
Proof.
  rewrite (preparePeerTags_perm tags). apply dedupLoop_spec.
Qed.

Lemma preparePeerTags_sorted tags : StronglySorted String.le (preparePeerTags tags).
Proof.
  unfold preparePeerTags. destruct (decide (length tags = 0%nat)).
  - constructor.
  - apply StronglySorted_merge_sort; apply _.
Qed.

(** C7.  The result of [preparePeerTags] does not depend on the order of
    its input (two inputs that are permutations of each other give the same
    list), has exactly the elements of the input, each of them once, is in
    ascending byte-wise order, and is empty on empty input. *)
Theorem preparePeerTags_canonical (tags tags' : list string) :
  tags ≡ₚ tags' ->
  preparePeerTags tags = preparePeerTags tags'
  /\ (forall t, t ∈ preparePeerTags tags <-> t ∈ tags)
  /\ NoDup (preparePeerTags tags)
  /\ (forall t, t ∈ tags ->
        length (filter (fun x => x = t) (preparePeerTags tags)) = 1%nat)
  /\ StronglySorted String.le (preparePeerTags tags)
  /\ preparePeerTags [] = [].
Proof.
  intros Hperm. repeat split.
  - apply (StronglySorted_unique String.le); try apply preparePeerTags_sorted.
    apply NoDup_Permutation; try apply preparePeerTags_NoDup.
    intros x. rewrite !preparePeerTags_elem. by rewrite Hperm.
  - apply preparePeerTags_elem.
  - apply preparePeerTags_elem.
  - apply preparePeerTags_NoDup.
  - intros t Ht. apply preparePeerTags_elem in Ht.
    pose proof (preparePeerTags_NoDup tags) as Hnd.
    induction Hnd as [|x l Hx Hnd IH]; [by apply elem_of_nil in Ht|].
    rewrite filter_cons. destruct (decide (x = t)) as [->|Hne].
    + simpl. f_equal. apply length_zero_iff_nil.
      apply elem_of_nil_inv. intros y [-> Hy]%list_elem_of_filter. done.
    + apply IH. apply elem_of_cons in Ht as [->|?]; done.
  - apply preparePeerTags_sorted.
Qed.

Lemma preparePeerTags_canonical_witness :
  preparePeerTags ["peer.service"; "db.instance"; "peer.service"]
  = preparePeerTags ["db.instance"; "peer.service"; "peer.service"].
Proof.
  apply (preparePeerTags_canonical
           ["peer.service"; "db.instance"; "peer.service"]
           ["db.instance"; "peer.service"; "peer.service"]).
  apply Permutation_swap.
Defined.

Example preparePeerTags_eval :
  preparePeerTags ["peer.service"; "db.instance"; "_dd.base_service"; "db.instance"]
  = ["_dd.base_service"; "db.instance"; "peer.service"].
Proof. vm_compute. reflexivity. Qed.

End peer_tags.

(** ** Ingestion: eligibility and bucket timestamps *)

Section ingestion.

Context {Mx W CSB D : Type}.
Variable unicodeLower : string -> string.
Variables HasTopLevel IsMeasured IsPartialSnapshot : pb.Span.t Mx -> bool.
Variable weight : option (pb.Span.t Mx) -> W.
Variable NewRawBucket : Z -> Z -> RawBucket.t D.
Variable HandleSpan :
  RawBucket.t D -> pb.Span.t Mx -> W -> bool -> string ->
  PayloadAggregationKey.t -> bool -> list string -> RawBucket.t D.

Local Abbreviation Span := (pb.Span.t Mx).
Local Abbreviation Conc := (Concentrator.t D).
Local Abbreviation kindOk := (computeStatsForSpanKind unicodeLower).
Local Abbreviation eligible :=
  (specEligible unicodeLower HasTopLevel IsMeasured IsPartialSnapshot).
Local Abbreviation addSpan' :=
  (addSpan unicodeLower HasTopLevel IsMeasured IsPartialSnapshot
     NewRawBucket HandleSpan).
Local Abbreviation addNow' :=
  (addNow unicodeLower HasTopLevel IsMeasured IsPartialSnapshot weight
     NewRawBucket HandleSpan).
Local Abbreviation Add' :=
  (Add unicodeLower HasTopLevel IsMeasured IsPartialSnapshot weight
     NewRawBucket HandleSpan).
Local Abbreviation getOrCreate' := (getOrCreate NewRawBucket).

(** C6.  [computeStatsForSpanKind] is true exactly when the [span.kind]
    value of the span, lowercased, is one of server, consumer, client and
    producer; it is false for a span without [span.kind] and for one whose
    [span.kind] is empty. *)
Theorem computeStatsForSpanKind_spec (s : Span) :
  computeStatsForSpanKind unicodeLower s
  = bool_decide (lowerKind unicodeLower s ∈ eligibleKinds)
  /\ computeStatsForSpanKind unicodeLower
       (pb.Span.mk (pb.Span.Start s) (pb.Span.Duration s)
          (delete "span.kind" (pb.Span.Meta s)) (pb.Span.Metrics s)) = false
  /\ computeStatsForSpanKind unicodeLower
       (pb.Span.mk (pb.Span.Start s) (pb.Span.Duration s)
          (<["span.kind" := ""]> (pb.Span.Meta s)) (pb.Span.Metrics s)) = false.
Proof.
  split; [|split].
  - unfold computeStatsForSpanKind, lowerKind, eligibleKinds.
    set (k := strings.ToLower _ _).
    repeat (destruct (decide _) as [->|?];
            [symmetry; apply bool_decide_eq_true; set_solver|]).
    symmetry. apply bool_decide_eq_false.
    rewrite !elem_of_cons, elem_of_nil. tauto.
  - unfold computeStatsForSpanKind. simpl. rewrite lookup_delete_eq. done.
  - unfold computeStatsForSpanKind. simpl. rewrite lookup_insert_eq. done.
Qed.

Lemma eligible_branches (c : Conc) (s : Span) :
  eligible c s
  = negb (negb (HasTopLevel s || IsMeasured s
                || (computeStatsBySpanKind c && kindOk s)))
    && negb (IsPartialSnapshot s).
Proof.
  unfold specEligible.
  destruct (computeStatsForSpanKind_spec s) as [-> _].
  destruct (IsPartialSnapshot s), (HasTopLevel s), (IsMeasured s),
    (computeStatsBySpanKind c), (bool_decide _); reflexivity.
Qed.

(** What one round of the span loop does. *)
Lemma addSpan_done w origin aggKey cid ctags (c : Conc) (s : Span) :
  bsize c <> 0 ->
  addSpan' w origin aggKey cid ctags c s =
    Done (if eligible c s
          then (setBuckets c
                  (<[codeBucketTime c s :=
                       HandleSpan (getOrCreate' c (codeBucketTime c s) cid ctags)
                         s w (HasTopLevel s) origin aggKey
                         (peerTagsAggregation c) (peerTagKeys c)]> (buckets c)),
                [mkCall (codeBucketTime c s) s w (HasTopLevel s) origin aggKey
                   (peerTagsAggregation c) (peerTagKeys c)])
          else (c, [])).
Proof.
  intros Hb. rewrite eligible_branches. unfold addSpan.
  destruct (negb (HasTopLevel s || IsMeasured s || _)); [done|].
  destruct (IsPartialSnapshot s); [done|]. simpl.
  rewrite rem64_done by done. simpl.
  unfold codeBucketTime.
  rewrite sub_rem_exact by (done || apply wrap64_in_range).
  done.
Qed.

(** With a positive bucket width and a non-negative watermark, truncation
    toward zero followed by the clamp agrees with the floor followed by the
    clamp, also for negative end times. *)
Lemma codeBucketTime_floor (c : Conc) (s : Span) :
  0 < bsize c -> 0 <= oldestTs c ->
  codeBucketTime c s = specBucketTime c s.
Proof.
  intros Hb Ho. unfold codeBucketTime, specBucketTime, floorTo, endTime.
  set (e := Int64.add _ _). set (b := bsize c) in *.
  pose proof (Z.div_mod e b ltac:(lia)) as Hdm.
  pose proof (Z.mod_pos_bound e b Hb) as Hmb.
  destruct (Z_le_gt_dec 0 e) as [Hpos|Hneg].
  - rewrite Z.rem_mod_nonneg by lia.
    replace (e - e mod b) with (b * (e / b)) by lia.
    destruct (Z.ltb_spec (b * (e / b)) (oldestTs c)), (decide _); lia.
  - destruct (rem_between e b ltac:(lia)) as [_ Hn]. specialize (Hn ltac:(lia)).
    destruct (Z.ltb_spec (e - Z.rem e b) (oldestTs c)), (decide _); lia.
Qed.

Lemma sameSettings_refl (c : Conc) : sameSettings c c.
Proof. by destruct c. Qed.

Lemma sameSettings_fields (c c' : Conc) :
  sameSettings c c' ->
  bsize c' = bsize c /\ oldestTs c' = oldestTs c /\ bufferLen c' = bufferLen c
  /\ computeStatsBySpanKind c' = computeStatsBySpanKind c.
Proof. intros ->. done. Qed.

Lemma sameSettings_trans (a b c : Conc) :
  sameSettings a b -> sameSettings b c -> sameSettings a c.
Proof. unfold sameSettings. intros -> ->. done. Qed.

Lemma codeBucketTime_sameSettings (c c' : Conc) (s : Span) :
  sameSettings c c' -> codeBucketTime c' s = codeBucketTime c s.
Proof. intros ->. done. Qed.

Lemma ingested_refl (c : Conc) : ingested (Mx := Mx) (W := W) c c [].
Proof.
  split; [apply sameSettings_refl|]. split; [constructor|]. split; [done|auto].
Qed.

Lemma ingested_trans (a b c : Conc) (e1 e2 : list (HandleSpanCall (Mx := Mx) (W := W))) :
  ingested a b e1 -> ingested b c e2 -> ingested a c (e1 ++ e2).
Proof.
  intros (Hs1 & Hc1 & Hk1 & Hn1) (Hs2 & Hc2 & Hk2 & Hn2).
  split; [by eapply sameSettings_trans|]. split; [|split].
  - apply Forall_app. split.
    + eapply Forall_impl; [exact Hc1|]. intros call [? ?]. auto.
    + eapply Forall_impl; [exact Hc2|]. intros call [Hb ?].
      by rewrite (codeBucketTime_sameSettings a b) in Hb.
  - auto.
  - intros ts Hts. destruct (Hn2 ts Hts) as [Hb|(call & Hin & Heq)].
    + destruct (Hn1 ts Hb) as [?|(call & Hin & Heq)]; [by left|].
      right. exists call. rewrite elem_of_app. auto.
    + right. exists call. rewrite elem_of_app. auto.
Qed.

(** A loop whose body never panics under an invariant, and relates the
    states before and after to the events emitted, does so as a whole. *)
Lemma rangeM_done {S X E : Type} (body : S -> X -> outcome (S * list E))
    (R : S -> S -> list E -> Prop) (I : S -> Prop) :
  (forall st, R st st []) ->
  (forall a b c e1 e2, R a b e1 -> R b c e2 -> R a c (e1 ++ e2)) ->
  (forall st x, I st -> exists st' ev, body st x = Done (st', ev) /\ R st st' ev /\ I st') ->
  forall xs st, I st ->
    exists st' ev, rangeM body xs st = Done (st', ev) /\ R st st' ev /\ I st'.
Proof.
  intros Hrefl Htrans Hbody xs. induction xs as [|x xs IH]; intros st Hst.
  - exists st, []. simpl. auto.
  - destruct (Hbody st x Hst) as (st1 & ev1 & Hx & HR1 & HI1).
    destruct (IH st1 HI1) as (st2 & ev2 & Hxs & HR2 & HI2).
    exists st2, (ev1 ++ ev2). simpl. rewrite Hx. simpl. rewrite Hxs. simpl.
    eauto.
Qed.

Lemma addSpan_ingested w origin aggKey cid ctags (c : Conc) (s : Span) :
  bsize c <> 0 ->
  exists c' calls,
    addSpan' w origin aggKey cid ctags c s = Done (c', calls)
    /\ ingested c c' calls /\ bsize c' <> 0.
Proof.
  intros Hb. rewrite addSpan_done by done.
  destruct (eligible c s).
  - eexists _, _. split; [reflexivity|]. split; [|done].
    split; [by destruct c|]. simpl. split; [|split].
    + repeat constructor. simpl. rewrite lookup_insert_eq. eauto.
    + intros ts Hts. destruct (decide (codeBucketTime c s = ts)) as [->|Hne].
      * rewrite lookup_insert_eq. eauto.
      * by rewrite lookup_insert_ne.
    + intros ts Hts. destruct (decide (codeBucketTime c s = ts)) as [<-|Hne].
      * right. eexists. split; [apply list_elem_of_singleton; reflexivity|done].
      * left. by rewrite lookup_insert_ne in Hts.
  - exists c, []. split; [done|]. split; [apply ingested_refl|done].
Qed.

Lemma addNow_ingested pt cid ctags (c : Conc) :
  bsize c <> 0 ->
  exists c' calls,
    addNow' pt cid ctags c = Done (c', calls) /\ ingested c c' calls /\ bsize c' <> 0.
Proof.
  intros Hb. unfold addNow.
  apply (rangeM_done _ ingested (fun c => bsize c <> 0)); [| | |exact Hb].
  - apply ingested_refl.
  - apply ingested_trans.
  - intros st s. apply addSpan_ingested.
Qed.

Lemma Add_ingested t (c : Conc) :
  bsize c <> 0 ->
  exists c' calls, Add' t c = Done (c', calls) /\ ingested c c' calls /\ bsize c' <> 0.
Proof.
  intros Hb. unfold Add.
  apply (rangeM_done _ ingested (fun c => bsize c <> 0)); [| | |exact Hb].
  - apply ingested_refl.
  - apply ingested_trans.
  - intros st trace. apply addNow_ingested.
Qed.

(** The spans handed to [HandleSpan] by the span loop are the eligible
    ones, in order. *)
Lemma addSpans_handled w origin aggKey cid ctags (c0 : Conc) spans :
  bsize c0 <> 0 ->
  forall c, sameSettings c0 c ->
    exists c' calls,
      rangeM (addSpan' w origin aggKey cid ctags) spans c = Done (c', calls)
      /\ sameSettings c0 c'
      /\ hc_span <$> calls = filter (fun s => eligible c0 s = true) spans.
Proof.
  intros Hb. induction spans as [|s spans IH]; intros c Hc.
  - exists c, []. done.
  - destruct (sameSettings_fields _ _ Hc) as (Hbs & _ & _ & Hk).
    assert (eligible c s = eligible c0 s) as Hel.
    { unfold specEligible. by rewrite Hk. }
    simpl. rewrite addSpan_done by congruence. rewrite Hel. simpl.
    rewrite filter_cons. destruct (eligible c0 s) eqn:He.
    + set (c1 := setBuckets c _).
      destruct (IH c1) as (c' & calls & -> & Hs' & Hf).
      { eapply sameSettings_trans; [exact Hc|]. by destruct c. }
      simpl. eexists _, _. split; [reflexivity|]. split; [done|].
      simpl. f_equal. exact Hf.
    + destruct (IH c Hc) as (c' & calls & -> & Hs' & Hf).
      simpl. eexists _, _. split; [reflexivity|]. split; [done|].
      done.
Qed.

(** C5.  The spans [addNow] hands to [HandleSpan] are exactly the spans of
    the chunk that are not partial snapshots and are top-level, measured,
    or (with span-kind eligibility enabled) of kind server, consumer,
    client or producer in any letter case; they are handed over in order,
    once each. *)
Theorem addNow_handles_eligible pt cid ctags (c : Conc) :
  bsize c <> 0 ->
  exists c' calls,
    addNow unicodeLower HasTopLevel IsMeasured IsPartialSnapshot weight
      NewRawBucket HandleSpan pt cid ctags c = Done (c', calls)
    /\ hc_span <$> calls
       = filter
           (fun s => specEligible unicodeLower HasTopLevel IsMeasured
                       IsPartialSnapshot c s = true)
           (pb.TraceChunk.Spans (traceutil.ProcessedTrace.TraceChunk pt)).
Proof.
  intros Hb. unfold addNow.
  edestruct addSpans_handled as (c' & calls & Hrun & _ & Hf);
    [exact Hb|apply sameSettings_refl|].
  exists c', calls. split; [exact Hrun|exact Hf].
Qed.

Lemma rangeM_cons {S X E : Type} (body : S -> X -> outcome (S * list E))
    (x : X) (xs : list X) (st : S) :
  rangeM body (x :: xs) st
  = obind (body st x) (fun r1 =>
      obind (rangeM body xs r1.1) (fun r2 => Done (r2.1, r1.2 ++ r2.2))).
Proof.
  simpl. destruct (body st x) as [[s1 e1]|]; [|done]. simpl.
  by destruct (rangeM body xs s1) as [[s2 e2]|].
Qed.

(** One round of the span loop, as the specification has it. *)
Lemma addSpan_spec w origin aggKey cid ctags (c : Conc) (s : Span) :
  0 < bsize c -> 0 <= oldestTs c ->
  addSpan' w origin aggKey cid ctags c s =
    Done (if eligible c s
          then (specAddSpan HasTopLevel NewRawBucket HandleSpan
                  w origin aggKey cid ctags c s,
                [mkCall (specBucketTime c s) s w (HasTopLevel s) origin aggKey
                   (peerTagsAggregation c) (peerTagKeys c)])
          else (c, [])).
Proof.
  intros Hb Ho. rewrite addSpan_done by lia.
  rewrite codeBucketTime_floor by done. reflexivity.
Qed.

(** The span loop does to the concentrator what the specification says, one
    eligible span after the other. *)
Lemma addSpans_spec w origin aggKey cid ctags (c0 : Conc) spans :
  0 < bsize c0 -> 0 <= oldestTs c0 ->
  forall c, sameSettings c0 c ->
    exists calls,
      rangeM (addSpan' w origin aggKey cid ctags) spans c
      = Done (foldl (specAddSpan HasTopLevel NewRawBucket HandleSpan
                       w origin aggKey cid ctags) c
                (filter (fun s => eligible c0 s = true) spans),
              calls)
      /\ hc_span <$> calls = filter (fun s => eligible c0 s = true) spans
      /\ Forall (fun call => hc_bucket call = specBucketTime c0 (hc_span call)) calls.
Proof.
  intros Hb Ho. induction spans as [|s spans IH]; intros c Hc.
  - exists []. done.
  - destruct (sameSettings_fields _ _ Hc) as (Hbs & Hos & _ & Hk).
    assert (eligible c s = eligible c0 s) as Hel.
    { unfold specEligible. by rewrite Hk. }
    assert (specBucketTime c s = specBucketTime c0 s) as Hspec.
    { unfold specBucketTime. by rewrite Hbs, Hos. }
    rewrite rangeM_cons, addSpan_spec by lia. rewrite Hel, filter_cons.
    destruct (eligible c0 s) eqn:He.
    + destruct (decide (true = true)) as [_|?]; [|done].
      set (c1 := specAddSpan HasTopLevel NewRawBucket HandleSpan
                   w origin aggKey cid ctags c s).
      destruct (IH c1) as (calls & Hrun & Hf & Hall).
      { eapply sameSettings_trans; [exact Hc|]. subst c1. by destruct c. }
      cbn [obind fst snd]. rewrite Hrun. cbn [obind fst snd].
      eexists. split; [reflexivity|]. split; [simpl; by f_equal|].
      constructor; [simpl; exact Hspec|exact Hall].
    + destruct (decide (false = true)) as [?|_]; [done|].
      destruct (IH c Hc) as (calls & Hrun & Hf & Hall).
      cbn [obind fst snd]. rewrite Hrun. cbn [obind fst snd].
      eexists. split; [reflexivity|]. done.
Qed.

(** C1.  Every eligible span of the chunk is handed by [addNow] to the
    bucket whose timestamp is the floor of its end time to the bucket
    width, or to the bucket at [oldestTs] when that floor is below
    [oldestTs]: no span is dropped (the spans handed over are all the
    eligible ones), each goes to the bucket at that timestamp, the bucket is
    in the map afterwards, and the concentrator [addNow] leaves is the one
    obtained by applying [HandleSpan] at those timestamps, span after span.
    The bucket width is positive and the watermark not negative, as it is
    in every state of a concentrator created at or after the epoch
    ([watermark_nonneg]). *)
Theorem addNow_bucket_timestamp pt cid ctags (c : Conc) :
  0 < bsize c -> 0 <= oldestTs c ->
  exists c' calls,
    addNow unicodeLower HasTopLevel IsMeasured IsPartialSnapshot weight
      NewRawBucket HandleSpan pt cid ctags c = Done (c', calls)
    /\ hc_span <$> calls
       = filter
           (fun s => specEligible unicodeLower HasTopLevel IsMeasured
                       IsPartialSnapshot c s = true)
           (pb.TraceChunk.Spans (traceutil.ProcessedTrace.TraceChunk pt))
    /\ Forall (fun call =>
                 hc_bucket call = specBucketTime c (hc_span call)
                 /\ is_Some (buckets c' !! hc_bucket call)) calls
    /\ c' = foldl
              (specAddSpan HasTopLevel NewRawBucket HandleSpan
                 (weight (traceutil.ProcessedTrace.Root pt))
                 (pb.TraceChunk.Origin (traceutil.ProcessedTrace.TraceChunk pt))
                 (aggKeyOf c pt cid) cid ctags)
              c
              (filter
                 (fun s => specEligible unicodeLower HasTopLevel IsMeasured
                             IsPartialSnapshot c s = true)
                 (pb.TraceChunk.Spans (traceutil.ProcessedTrace.TraceChunk pt))).
Proof.
  intros Hb Ho.
  destruct (addNow_ingested pt cid ctags c ltac:(lia)) as (c' & calls & Hrun & Hin & _).
  exists c', calls. split; [exact Hrun|].
  unfold addNow in Hrun.
  destruct (addSpans_spec (weight (traceutil.ProcessedTrace.Root pt))
              (pb.TraceChunk.Origin (traceutil.ProcessedTrace.TraceChunk pt))
              (aggKeyOf c pt cid) cid ctags c
              (pb.TraceChunk.Spans (traceutil.ProcessedTrace.TraceChunk pt))
              Hb Ho c (sameSettings_refl c)) as (calls' & Hrun' & Hf & Hall).
  unfold aggKeyOf in Hrun'. rewrite Hrun in Hrun'. injection Hrun' as -> ->.
  split; [exact Hf|]. split; [|reflexivity].
  destruct Hin as (_ & Hcalls & _).
  apply Forall_forall. intros call Hcall.
  rewrite Forall_forall in Hcalls, Hall.
  split; [by apply Hall|by apply Hcalls].
Qed.

End ingestion.

(** ** Flushing: retention, forced drain and the payload *)

Section flushing.

Context {CSB D : Type}.
Variable Export : RawBucket.t D -> gmap PayloadAggregationKey.t CSB.

Local Abbreviation Conc := (Concentrator.t D).
Local Abbreviation Bucket := (RawBucket.t D).
Local Abbreviation sweepStep' := (sweepStep Export).
Local Abbreviation sweepOver' := (sweepOver Export).
Local Abbreviation sweep' := (sweep Export).
Local Abbreviation flushNow' := (flushNow Export).
Local Abbreviation Flush' := (Flush Export).
Local Abbreviation Run' := (Run Export).

Implicit Types (c : Conc) (now ts : Z) (force : bool).

Lemma sweepStep_retained c now force st ts (srb : Bucket) :
  retained c now force ts = true -> sweepStep' c now force st (ts, srb) = st.
Proof. unfold sweepStep. by intros ->. Qed.

Lemma sweepStep_flushed c now force st ts (srb : Bucket) :
  retained c now force ts = false ->
  sw_buckets (sweepStep' c now force st (ts, srb)) = delete ts (sw_buckets st)
  /\ sw_flushed (sweepStep' c now force st (ts, srb)) = sw_flushed st ++ [ts].
Proof. unfold sweepStep. intros ->. by destruct (foldl _ _ _). Qed.

(** The sweep deletes the entries that fail the retention test, logs them
    in the order it meets them, and touches nothing else of the map. *)
Lemma sweep_fold c now force (entries : list (Z * Bucket)) st :
  let r := foldl (sweepStep' c now force) st entries in
  sw_flushed r = sw_flushed st ++ flushedOf c now force entries.*1
  /\ forall ts,
       sw_buckets r !! ts =
         if decide (ts ∈ flushedOf c now force entries.*1) then None
         else sw_buckets st !! ts.
Proof.
  revert st. induction entries as [|[t srb] entries IH]; intros st.
  - simpl. split; [by rewrite app_nil_r|done].
  - change (foldl (sweepStep' c now force) st ((t, srb) :: entries))
      with (foldl (sweepStep' c now force) (sweepStep' c now force st (t, srb)) entries).
    rewrite fmap_cons. cbn [fst].
    destruct (IH (sweepStep' c now force st (t, srb))) as [Hlog Hmap].
    cbv zeta. unfold flushedOf in *. rewrite filter_cons.
    destruct (retained c now force t) eqn:Hret.
    + destruct (decide (true = false)) as [?|_]; [done|].
      rewrite sweepStep_retained by done. done.
    + destruct (sweepStep_flushed c now force st t srb Hret) as [Hb Hf].
      destruct (decide (false = false)) as [_|?]; [|done]. split.
      * rewrite Hlog, Hf, <- app_assoc. done.
      * intros ts. rewrite Hmap, Hb.
        destruct (decide (ts ∈ filter _ entries.*1)) as [Hin|Hout].
        -- rewrite decide_True; [done|]. by apply list_elem_of_further.
        -- destruct (decide (ts = t)) as [->|Hne].
           ++ rewrite decide_True by apply list_elem_of_here.
              apply lookup_delete_eq.
           ++ rewrite decide_False.
              ** by apply lookup_delete_ne.
              ** rewrite elem_of_cons. tauto.
Qed.

Lemma sweep_flushed c now force :
  sw_flushed (sweep' c now force)
  = flushedOf c now force (map_to_list (buckets c)).*1.
Proof.
  unfold sweep, sweepOver.
  by destruct (sweep_fold c now force (map_to_list (buckets c))
                 (mkSweep ∅ ∅ (buckets c) [])) as [-> _].
Qed.

(** The order in which the sweep meets the buckets, which Go leaves open,
    does not matter for the bucket map it leaves nor for the set of buckets
    it exports. *)
Lemma sweepOver_order c now force (entries : list (Z * Bucket)) :
  entries ≡ₚ map_to_list (buckets c) ->
  sw_buckets (sweepOver' c now force entries) = sw_buckets (sweep' c now force)
  /\ sw_flushed (sweepOver' c now force entries) ≡ₚ sw_flushed (sweep' c now force).
Proof.
  intros Hperm. unfold sweep, sweepOver.
  destruct (sweep_fold c now force entries (mkSweep ∅ ∅ (buckets c) []))
    as [Hf1 Hb1].
  destruct (sweep_fold c now force (map_to_list (buckets c))
              (mkSweep ∅ ∅ (buckets c) [])) as [Hf2 Hb2].
  assert (flushedOf c now force entries.*1
          ≡ₚ flushedOf c now force (map_to_list (buckets c)).*1) as Hfl.
  { unfold flushedOf. by rewrite Hperm. }
  split.
  - apply map_eq. intros ts. rewrite Hb1, Hb2.
    destruct (decide _) as [Hin|Hout], (decide _) as [Hin'|Hout']; try done.
    + exfalso. apply Hout'. by rewrite <- Hfl.
    + exfalso. apply Hout. by rewrite Hfl.
  - by rewrite Hf1, Hf2, Hfl.
Qed.

(** After the sweep the map holds exactly the retained buckets. *)
Lemma sweep_buckets c now force ts :
  sw_buckets (sweep' c now force) !! ts
  = if retained c now force ts then buckets c !! ts else None.
Proof.
  unfold sweep, sweepOver.
  destruct (sweep_fold c now force (map_to_list (buckets c))
              (mkSweep ∅ ∅ (buckets c) [])) as [_ ->].
  simpl. unfold flushedOf. destruct (decide _) as [Hin|Hout].
  - apply list_elem_of_filter in Hin as [-> _]. done.
  - destruct (retained c now force ts) eqn:Hret; [done|].
    destruct (buckets c !! ts) as [b|] eqn:Hb; [|done].
    exfalso. apply Hout. apply list_elem_of_filter. split; [done|].
    apply list_elem_of_fmap. exists (ts, b). split; [done|].
    by apply elem_of_map_to_list.
Qed.

(** A sweep that retains every bucket exports nothing. *)
Lemma sweep_nothing c now force :
  (forall ts b, buckets c !! ts = Some b -> retained c now force ts = true) ->
  sweep' c now force = mkSweep ∅ ∅ (buckets c) [].
Proof.
  intros Hall. unfold sweep, sweepOver.
  assert (Forall (fun e : Z * Bucket => retained c now force e.1 = true)
            (map_to_list (buckets c))) as Hl.
  { apply Forall_forall. intros [ts b] Hin%elem_of_map_to_list. eauto. }
  generalize (mkSweep (CSB := CSB) ∅ ∅ (buckets c) []).
  induction Hl as [|[ts b] l Hret _ IH]; intros st; [done|].
  change (foldl (sweepStep' c now force) st ((ts, b) :: l))
    with (foldl (sweepStep' c now force) (sweepStep' c now force st (ts, b)) l).
  rewrite sweepStep_retained by done. apply IH.
Qed.

Lemma alignTs_done ts bsize :
  bsize <> 0 -> alignTs ts bsize = Done (Int64.sub ts (Z.rem ts bsize)).
Proof. intros Hb. unfold alignTs. by rewrite rem64_done. Qed.

Lemma newOldestTs_done c now :
  bsize c <> 0 ->
  newOldestTs c now
  = Done (Int64.sub (Int64.sub now (Z.rem now (bsize c)))
            (Int64.mul (Int64.sub (bufferLen c) 1) (bsize c))).
Proof. intros Hb. unfold newOldestTs. by rewrite alignTs_done. Qed.

(** The watermark candidate, where nothing overflows. *)
Lemma newOldestTs_exact c now :
  bsize c <> 0 -> in_range now -> in_range (bufferLen c - 1) ->
  in_range ((bufferLen c - 1) * bsize c) ->
  in_range (now - Z.rem now (bsize c) - (bufferLen c - 1) * bsize c) ->
  newOldestTs c now
  = Done (now - Z.rem now (bsize c) - (bufferLen c - 1) * bsize c).
Proof.
  intros Hb Hn Hl Hm Hr. rewrite newOldestTs_done by done.
  unfold Int64.sub at 3. rewrite (wrap64_id (bufferLen c - 1)) by done.
  unfold Int64.mul. rewrite (wrap64_id (_ * _)) by done.
  rewrite sub_rem_exact by done. unfold Int64.sub. by rewrite wrap64_id.
Qed.

(** The retention threshold, where nothing overflows. *)
Lemma flushCutoff_exact c now :
  in_range (bufferLen c * bsize c) -> in_range (now - bufferLen c * bsize c) ->
  flushCutoff c now = now - bufferLen c * bsize c.
Proof.
  intros Hm Hr. unfold flushCutoff, Int64.mul, Int64.sub.
  rewrite (wrap64_id (_ * _)) by done. by rewrite wrap64_id.
Qed.

Lemma advance_fields c cand :
  bsize (advance c cand) = bsize c /\ bufferLen (advance c cand) = bufferLen c
  /\ buckets (advance c cand) = buckets c
  /\ oldestTs (advance c cand) = (if oldestTs c <? cand then cand else oldestTs c)
  /\ agentHostname (advance c cand) = agentHostname c
  /\ agentEnv (advance c cand) = agentEnv c
  /\ agentVersion (advance c cand) = agentVersion c.
Proof. unfold advance. by destruct (_ <? _). Qed.

(** [flushNow] returns whenever the bucket width is not zero. *)
Lemma flushNow_done now force c :
  bsize c <> 0 ->
  exists cand,
    newOldestTs c now = Done cand
    /\ flushNow' now force c
       = Done (Some (pb.StatsPayload.mk
                       (assemble (sw_m (sweep' c now force))
                          (sw_containerTagsByID (sweep' c now force)))
                       (agentHostname c) (agentEnv c) (agentVersion c)),
               advance (setBuckets c (sw_buckets (sweep' c now force))) cand).
Proof.
  intros Hb. eexists. split; [by apply newOldestTs_done|].
  unfold flushNow.
  change (newOldestTs (setBuckets c _) now) with (newOldestTs c now).
  rewrite newOldestTs_done by done. simpl.
  by destruct (advance_fields (setBuckets c (sw_buckets (sweep' c now force)))
                 (Int64.sub (Int64.sub now (Z.rem now (bsize c)))
                    (Int64.mul (Int64.sub (bufferLen c) 1) (bsize c))))
    as (_ & _ & _ & _ & -> & -> & ->).
Qed.


Lemma assemble_empty (tags : gmap string (list string)) :
  assemble (CSB := CSB) ∅ tags = [].
Proof. unfold assemble. by rewrite map_to_list_empty. Qed.

(** C2.  After a non-forced flush at [now], every bucket left in the map has
    a timestamp above [now - bufferLen*bsize] (and was there before), and
    every bucket the flush exported and removed has a timestamp at most
    [now - bufferLen*bsize]; the exported buckets are exactly the removed
    ones.  The threshold is computed in [int64] as the code does
    ([flushCutoff_exact] gives its value where nothing overflows). *)
Theorem flush_retention now c :
  bsize c <> 0 ->
  exists p c',
    flushNow Export now false c = Done (Some p, c')
    /\ (forall ts b, buckets c' !! ts = Some b ->
          flushCutoff c now < ts /\ buckets c !! ts = Some b)
    /\ (forall ts, ts ∈ sw_flushed (sweep Export c now false) <->
          is_Some (buckets c !! ts) /\ buckets c' !! ts = None)
    /\ Forall (fun ts => ts <= flushCutoff c now) (sw_flushed (sweep Export c now false)).
Proof.
  intros Hb. destruct (flushNow_done now false c Hb) as (cand & _ & Hrun).
  eexists _, _. split; [exact Hrun|].
  destruct (advance_fields (setBuckets c (sw_buckets (sweep' c now false))) cand)
    as (_ & _ & -> & _). simpl.
  assert (forall ts, retained c now false ts = true <-> flushCutoff c now < ts) as Hret.
  { intros ts. unfold retained. simpl. apply Z.ltb_lt. }
  split; [|split].
  - intros ts b. rewrite sweep_buckets.
    destruct (retained c now false ts) eqn:Hr; [|done].
    intros Hl. split; [by apply Hret|done].
  - intros ts. rewrite sweep_flushed, sweep_buckets. unfold flushedOf.
    rewrite list_elem_of_filter, list_elem_of_fmap. split.
    + intros [-> ([t b] & -> & Hin%elem_of_map_to_list)]. simpl. eauto.
    + intros [[b Hl] Hnone]. destruct (retained c now false ts); [congruence|].
      split; [done|]. exists (ts, b). split; [done|]. by apply elem_of_map_to_list.
  - rewrite sweep_flushed. apply Forall_forall. intros ts.
    unfold flushedOf. rewrite list_elem_of_filter. intros [Hr _].
    destruct (Z_le_gt_dec ts (flushCutoff c now)) as [?|Hgt]; [done|].
    assert (retained c now false ts = true) by (apply Hret; lia). congruence.
Qed.

(** C8, as amended.  When the first of two consecutive flushes is forced,
    or the second is not forced and its retention threshold is not above
    the first one's (the same [now], for instance), the second payload has
    no groups and the second flush removes no bucket. *)
Theorem second_flush_empty now1 force1 now2 force2 c :
  bsize c <> 0 ->
  force1 = true \/ (force2 = false /\ flushCutoff c now2 <= flushCutoff c now1) ->
  exists p1 c1 p2 c2,
    flushNow Export now1 force1 c = Done (Some p1, c1)
    /\ flushNow Export now2 force2 c1 = Done (Some p2, c2)
    /\ pb.StatsPayload.Stats p2 = []
    /\ buckets c2 = buckets c1.
Proof.
  intros Hb Hcase.
  destruct (flushNow_done now1 force1 c Hb) as (cand1 & _ & Hrun1).
  set (c1 := advance (setBuckets c (sw_buckets (sweep' c now1 force1))) cand1) in *.
  destruct (advance_fields (setBuckets c (sw_buckets (sweep' c now1 force1))) cand1)
    as (Hbs & Hbl & Hbk & _). fold c1 in Hbs, Hbl, Hbk. simpl in Hbs, Hbl, Hbk.
  destruct (flushNow_done now2 force2 c1 ltac:(congruence)) as (cand2 & _ & Hrun2).
  assert (sweep' c1 now2 force2 = mkSweep ∅ ∅ (buckets c1) []) as Hsw.
  { apply sweep_nothing. intros ts b. rewrite Hbk, sweep_buckets.
    destruct (retained c now1 force1 ts) eqn:Hr1; [|done]. intros _.
    unfold retained in *. unfold flushCutoff in *. rewrite Hbs, Hbl.
    destruct Hcase as [->|[-> Hle]]; [done|]. simpl.
    apply andb_prop in Hr1 as [_ Hr1%Z.ltb_lt]. apply Z.ltb_lt. lia. }
  eexists _, _, _, _. split; [exact Hrun1|]. split; [exact Hrun2|].
  rewrite Hsw. cbn [sw_m sw_containerTagsByID sw_buckets pb.StatsPayload.Stats].
  split; [apply assemble_empty|].
  by destruct (advance_fields (setBuckets c1 (buckets c1)) cand2) as (_ & _ & -> & _).
Qed.

(** The agent identity of the concentrator, with its bucket width. *)
Lemma flushNow_identity now force c :
  bsize c <> 0 ->
  exists p c',
    flushNow' now force c = Done (Some p, c')
    /\ pb.StatsPayload.AgentHostname p = agentHostname c
    /\ pb.StatsPayload.AgentEnv p = agentEnv c
    /\ pb.StatsPayload.AgentVersion p = agentVersion c
    /\ bsize c' = bsize c /\ agentHostname c' = agentHostname c
    /\ agentEnv c' = agentEnv c /\ agentVersion c' = agentVersion c.
Proof.
  intros Hb. destruct (flushNow_done now force c Hb) as (cand & _ & Hrun).
  eexists _, _. split; [exact Hrun|]. simpl.
  destruct (advance_fields (setBuckets c (sw_buckets (sweep' c now force))) cand)
    as (-> & _ & _ & _ & -> & -> & ->). done.
Qed.

(** C10.  Whenever the bucket width is not zero, [flushNow] returns a
    non-nil payload carrying the agent hostname, environment and version of
    the concentrator; its [Stats] list is empty when no bucket qualifies
    for export.  With a positive bucket width, along any schedule of [Run],
    every argument of [Writer.Write] is such a non-nil payload: one per
    tick and one at exit.  With a negative bucket width [Run] panics in
    [time.NewTicker] and writes nothing. *)
Theorem flushNow_payload now force c :
  bsize c <> 0 ->
  (exists p c',
     flushNow Export now force c = Done (Some p, c')
     /\ pb.StatsPayload.AgentHostname p = agentHostname c
     /\ pb.StatsPayload.AgentEnv p = agentEnv c
     /\ pb.StatsPayload.AgentVersion p = agentVersion c
     /\ ((forall ts b, buckets c !! ts = Some b -> retained c now force ts = true) ->
         pb.StatsPayload.Stats p = []))
  /\ (0 < bsize c ->
      forall ticks exitClock,
        exists c' written,
          Run Export ticks exitClock c = Done (c', written)
          /\ length written = S (length ticks)
          /\ Forall (fun w => exists p,
                       w = Some p
                       /\ pb.StatsPayload.AgentHostname p = agentHostname c
                       /\ pb.StatsPayload.AgentEnv p = agentEnv c
                       /\ pb.StatsPayload.AgentVersion p = agentVersion c) written)
  /\ (bsize c < 0 -> forall ticks exitClock, Run Export ticks exitClock c = Panic).
Proof.
  intros Hb. split; [|split].
  - destruct (flushNow_done now force c Hb) as (cand & _ & Hrun).
    eexists _, _. split; [exact Hrun|]. simpl. repeat split.
    intros Hall. rewrite sweep_nothing by done. apply assemble_empty.
  - intros Hpos ticks exitClock.
    set (same := fun a b : Conc =>
           bsize b = bsize a /\ agentHostname b = agentHostname a
           /\ agentEnv b = agentEnv a /\ agentVersion b = agentVersion a).
    set (ok := fun (a : Conc) (w : option (pb.StatsPayload.t CSB)) =>
           exists p, w = Some p
             /\ pb.StatsPayload.AgentHostname p = agentHostname a
             /\ pb.StatsPayload.AgentEnv p = agentEnv a
             /\ pb.StatsPayload.AgentVersion p = agentVersion a).
    destruct (rangeM_done
                (fun c clock => '(p, c') ← Flush' clock false c; Done (c', [p]))
                (fun a b ws => same a b /\ Forall (ok a) ws)
                (fun a => bsize a <> 0)) with (xs := ticks) (st := c)
      as (c1 & written & Hloop & (Hsame & Hok) & Hb1).
    + intros st. repeat split. constructor.
    + intros a b d e1 e2 (Hab & H1) (Hbd & H2).
      destruct Hab as (? & ? & ? & ?), Hbd as (? & ? & ? & ?).
      split; [unfold same; repeat split; congruence|].
      apply Forall_app. split; [done|].
      eapply Forall_impl; [exact H2|]. intros w (p & -> & ? & ? & ?).
      exists p. repeat split; congruence.
    + intros st clock Hst. unfold Flush.
      destruct (flushNow_identity clock false st Hst)
        as (p & c' & -> & ? & ? & ? & ? & ? & ? & ?).
      eexists _, _. simpl. split; [reflexivity|].
      split; [|congruence]. split; [done|].
      repeat constructor. by exists p.
    + exact Hb.
    + unfold Run. destruct (Z.leb_spec (bsize c) 0) as [?|_]; [lia|].
      rewrite Hloop. simpl. unfold Flush.
      destruct (flushNow_identity exitClock true c1 Hb1)
        as (p & c' & -> & ? & ? & ? & _).
      destruct Hsame as (? & ? & ? & ?).
      eexists _, _. simpl. split; [reflexivity|]. split.
      * rewrite length_app. simpl.
        assert (length written = length ticks) as ->; [|lia].
        clear -Hloop. revert c written Hloop.
        induction ticks as [|t ticks IH]; intros c written Hloop; simpl in Hloop.
        { by inversion Hloop. }
        destruct (Flush' t false c) as [[p c']|]; [|done]. simpl in Hloop.
        destruct (rangeM _ ticks c') as [[c2 ev2]|] eqn:Hr; [|done].
        simpl in Hloop. inversion Hloop; subst. simpl. f_equal. by eapply IH.
      * apply Forall_app. split; [done|]. repeat constructor.
        exists p. repeat split; congruence.
  - intros Hneg ticks exitClock. unfold Run.
    destruct (Z.leb_spec (bsize c) 0) as [_|?]; [done|lia].
Qed.

End flushing.

(** ** Invariants along traces of [Add] and [Flush] *)

Section traces.

Context {Mx W CSB D : Type}.
Variable unicodeLower : string -> string.
Variables HasTopLevel IsMeasured IsPartialSnapshot : pb.Span.t Mx -> bool.
Variable weight : option (pb.Span.t Mx) -> W.
Variable NewRawBucket : Z -> Z -> RawBucket.t D.
Variable HandleSpan :
  RawBucket.t D -> pb.Span.t Mx -> W -> bool -> string ->
  PayloadAggregationKey.t -> bool -> list string -> RawBucket.t D.
Variable Export : RawBucket.t D -> gmap PayloadAggregationKey.t CSB.
Variable defaultPeerTags : list string.

Local Abbreviation Conc := (Concentrator.t D).
Local Abbreviation Add' :=
  (Add unicodeLower HasTopLevel IsMeasured IsPartialSnapshot weight
     NewRawBucket HandleSpan).
Local Abbreviation flushNow' := (flushNow Export).
Local Abbreviation step' :=
  (step unicodeLower HasTopLevel IsMeasured IsPartialSnapshot weight
     NewRawBucket HandleSpan Export).
Local Abbreviation run' :=
  (run unicodeLower HasTopLevel IsMeasured IsPartialSnapshot weight
     NewRawBucket HandleSpan Export).

(** One operation: it returns, keeps the bucket width and the buffer
    length, and does not lower the watermark. *)
Lemma step_watermark (c : Conc) (o : Op) :
  bsize c <> 0 ->
  exists c', step' c o = Done c' /\ bsize c' = bsize c
             /\ bufferLen c' = bufferLen c /\ oldestTs c <= oldestTs c'.
Proof.
  intros Hb. destruct o as [t|clock force]; simpl.
  - destruct (Add_ingested unicodeLower HasTopLevel IsMeasured IsPartialSnapshot
                weight NewRawBucket HandleSpan t c Hb)
      as (c' & calls & -> & (Hs & _) & _).
    exists c'. simpl. destruct (sameSettings_fields _ _ Hs) as (-> & -> & -> & _).
    repeat split; lia.
  - unfold Flush. destruct (flushNow_done Export clock force c Hb) as (cand & _ & ->).
    eexists. simpl. split; [reflexivity|].
    destruct (advance_fields
                (setBuckets c (sw_buckets (sweep Export c clock force))) cand)
      as (-> & -> & _ & -> & _). simpl.
    repeat split. destruct (Z.ltb_spec (oldestTs c) cand); lia.
Qed.

Lemma run_watermark (ops : list Op) (c : Conc) :
  bsize c <> 0 ->
  exists c', run' ops c = Done c' /\ bsize c' = bsize c /\ oldestTs c <= oldestTs c'.
Proof.
  revert c. induction ops as [|o ops IH]; intros c Hb.
  - exists c. split; [done|]. split; [done|lia].
  - destruct (step_watermark c o Hb) as (c1 & Hstep & Hbs & _ & Hle).
    destruct (IH c1 ltac:(congruence)) as (c' & Hrun & Hbs' & Hle').
    exists c'. simpl. rewrite Hstep. simpl. split; [done|]. split; [congruence|lia].
Qed.

(** A concentrator created at a clock reading at or after the epoch never
    has a negative watermark. *)
Lemma watermark_nonneg conf now0 (ops : list Op) :
  config.AgentConfig.BucketInterval conf <> 0 ->
  0 <= now0 <= max_int64 ->
  exists c0 c : Conc,
    NewConcentrator defaultPeerTags conf now0 = Done c0
    /\ run' ops c0 = Done c
    /\ bsize c = config.AgentConfig.BucketInterval conf
    /\ 0 <= oldestTs c.
Proof.
  intros Hb Hnow.
  assert (exists c0 : Conc,
            NewConcentrator defaultPeerTags conf now0 = Done c0
            /\ bsize c0 = config.AgentConfig.BucketInterval conf
            /\ 0 <= oldestTs c0) as (c0 & Hnew & Hbs & Ho).
  { unfold NewConcentrator. rewrite alignTs_done by done. simpl.
    assert (in_range now0) by (unfold in_range, min_int64, max_int64 in *; lia).
    destruct (rem_between now0 _ Hb) as [Hp _]. specialize (Hp ltac:(lia)).
    eexists. split; [reflexivity|].
    destruct (_ || _); simpl; (split; [done|]);
      rewrite sub_rem_exact by done; lia. }
  destruct (run_watermark ops c0 ltac:(congruence)) as (c & Hrun & Hbs' & Hle).
  exists c0, c. split; [done|]. split; [done|]. split; [congruence|lia].
Qed.

(** C4.  Along any sequence of [Add] and [Flush] calls, with any clock
    readings in any order, [oldestTs] never decreases; a flush moves it to
    the candidate [alignTs(now, bsize) - (bufferLen-1)*bsize] when the
    candidate is strictly greater and leaves it alone otherwise. *)
Theorem watermark_monotone (ops : list Op) now force (c : Conc) :
  bsize c <> 0 ->
  (exists c', run unicodeLower HasTopLevel IsMeasured IsPartialSnapshot weight
      NewRawBucket HandleSpan Export ops c = Done c' /\ oldestTs c <= oldestTs c')
  /\ exists p c' candidate,
       flushNow Export now force c = Done (Some p, c')
       /\ newOldestTs c now = Done candidate
       /\ oldestTs c' = (if oldestTs c <? candidate then candidate else oldestTs c).
Proof.
  intros Hb. split.
  - destruct (run_watermark ops c Hb) as (c' & Hrun & _ & Hle). by exists c'.
  - destruct (flushNow_done Export now force c Hb) as (cand & Hcand & Hrun).
    eexists _, _, cand. split; [exact Hrun|]. split; [exact Hcand|].
    by destruct (advance_fields
                   (setBuckets c (sw_buckets (sweep Export c now force))) cand)
      as (_ & _ & _ & -> & _).
Qed.

Lemma codeBucketTime_aligned (c : Conc) (s : pb.Span.t Mx) :
  bsize c <> 0 -> (bsize c | oldestTs c) -> (bsize c | codeBucketTime c s).
Proof.
  intros Hb Ho. unfold codeBucketTime.
  destruct (_ <? _); [done|]. by apply sub_rem_divide.
Qed.

(** The watermark candidate of a concentrator with the default buffer
    length, for a clock reading that is not within one bucket width of the
    least [int64]: one bucket width below the truncated reading. *)
Lemma newOldestTs_default (c : Conc) now :
  0 < bsize c <= max_int64 -> bufferLen c = defaultBufferLen ->
  min_int64 + bsize c <= now <= max_int64 ->
  newOldestTs c now = Done (now - Z.rem now (bsize c) - bsize c).
Proof.
  intros Hb Hl Hn. rewrite newOldestTs_exact; rewrite ?Hl; unfold defaultBufferLen.
  - do 2 f_equal. lia.
  - lia.
  - unfold in_range, min_int64, max_int64 in *. lia.
  - unfold in_range, min_int64, max_int64. lia.
  - unfold in_range, min_int64, max_int64 in *. lia.
  - destruct (rem_between now (bsize c) ltac:(lia)) as [Hp Hm].
    unfold in_range, min_int64, max_int64 in *.
    destruct (Z_le_gt_dec 0 now);
      [specialize (Hp ltac:(lia))|specialize (Hm ltac:(lia))]; lia.
Qed.

(** One operation keeps the bucket store aligned. *)
Lemma step_aligned (c : Conc) (o : Op) :
  0 < bsize c <= max_int64 -> bufferLen c = defaultBufferLen ->
  clockOk (bsize c) o -> aligned c ->
  exists c', step' c o = Done c' /\ bsize c' = bsize c
             /\ bufferLen c' = bufferLen c /\ aligned c'.
Proof.
  intros Hb Hl Hclock [Ho Hk]. destruct o as [t|clock force]; simpl.
  - destruct (Add_ingested unicodeLower HasTopLevel IsMeasured IsPartialSnapshot
                weight NewRawBucket HandleSpan t c ltac:(lia))
      as (c' & calls & -> & (Hs & Hcalls & _ & Hnew) & _).
    exists c'. simpl. destruct (sameSettings_fields _ _ Hs) as (Hbs & Hos & Hls & _).
    split; [done|]. split; [done|]. split; [done|].
    unfold aligned. rewrite Hbs, Hos. split; [done|].
    intros ts b Hl'. destruct (Hnew ts ltac:(eauto)) as [[b0 Hold]|(call & Hin & <-)].
    + by eapply Hk.
    + rewrite Forall_forall in Hcalls. destruct (Hcalls call Hin) as [-> _].
      apply codeBucketTime_aligned; [lia|done].
  - unfold Flush.
    destruct (flushNow_done Export clock force c ltac:(lia)) as (cand & Hcand & ->).
    rewrite newOldestTs_default in Hcand by done. injection Hcand as <-.
    eexists. split; [reflexivity|].
    destruct (advance_fields
                (setBuckets c (sw_buckets (sweep Export c clock force)))
                (clock - Z.rem clock (bsize c) - bsize c))
      as (Hbs & Hbl & Hbk & Hos & _). simpl in Hbs, Hbl, Hbk, Hos.
    split; [exact Hbs|]. split; [exact Hbl|].
    unfold aligned. rewrite Hbs, Hbk, Hos. split.
    + destruct (_ <? _); [|done].
      apply Z.divide_sub_r; [apply sub_rem_divide; lia|apply Z.divide_refl].
    + intros ts b. rewrite sweep_buckets. destruct (retained _ _ _ _); [|done].
      apply Hk.
Qed.

(** C9.  In every state reached from [NewConcentrator] by [Add] and [Flush]
    calls, the watermark and every key of the bucket map are multiples of
    the bucket width.  The bucket width is positive and the clock readings
    of the flushes are not within one bucket width of the least [int64]. *)
Theorem bucket_keys_aligned conf now0 (ops : list Op) :
  0 < config.AgentConfig.BucketInterval conf <= max_int64 ->
  in_range now0 ->
  Forall (clockOk (config.AgentConfig.BucketInterval conf)) ops ->
  exists c0 c : Conc,
    NewConcentrator defaultPeerTags conf now0 = Done c0
    /\ run unicodeLower HasTopLevel IsMeasured IsPartialSnapshot weight
      NewRawBucket HandleSpan Export ops c0 = Done c
    /\ bsize c = config.AgentConfig.BucketInterval conf
    /\ aligned c0 /\ aligned c.
Proof.
  intros Hb Hnow Hops.
  set (B := config.AgentConfig.BucketInterval conf) in *.
  assert (exists c0 : Conc,
            NewConcentrator defaultPeerTags conf now0 = Done c0
            /\ bsize c0 = B /\ bufferLen c0 = defaultBufferLen /\ aligned c0)
    as (c0 & Hnew & Hbs & Hbl & Hal).
  { unfold NewConcentrator. fold B. rewrite alignTs_done by lia. simpl.
    eexists. split; [reflexivity|].
    destruct (_ || _); simpl; (split; [done|]); (split; [done|]); split; simpl;
      try (rewrite sub_rem_exact by (done || lia); apply sub_rem_divide; lia);
      intros ts b; by rewrite lookup_empty. }
  exists c0. rewrite Hnew.
  assert (exists c, run' ops c0 = Done c /\ bsize c = B /\ aligned c)
    as (c & Hrun & HB & Hc); [|by exists c].
  clear Hnew. revert c0 Hbs Hbl Hal.
  induction Hops as [|o ops Ho _ IH]; intros c0 Hbs Hbl Hal.
  - exists c0. done.
  - destruct (step_aligned c0 o) as (c1 & Hstep & Hbs1 & Hbl1 & Hal1);
      [lia|done|by rewrite Hbs|done|].
    destruct (IH c1) as (c & Hrun & HB & Hc); [congruence|congruence|done|].
    exists c. simpl. rewrite Hstep. done.
Qed.

End traces.

(** ** The operations on concrete inputs *)

Section evaluation.
Import Sample.

Example newConcentrator_eval : newConcentrator 100 = Done started.
Proof. reflexivity. Qed.

Example newConcentrator_zero_width :
  NewConcentrator (D := Counts) defaultPeerTags
    (config.AgentConfig.mk 0 "prod" "agent-host" "7.50.0" false true true []) 100
  = Panic.
Proof. reflexivity. Qed.

Example add_eval :
  add (input [topSpan]) started
  = Done (loaded, [mkCall 100 topSpan 1 true "lambda" key true
                     ["_dd.base_service"; "peer.zone"]]).
Proof. reflexivity. Qed.

(** Go's [%] truncates toward zero: a negative timestamp is aligned
    upward. *)
Example alignTs_negative : alignTs (-5) 10 = Done 0 /\ floorTo (-5) 10 = -10.
Proof. split; reflexivity. Qed.

Example computeStatsForSpanKind_eval :
  computeStatsForSpanKind unicodeLower clientSpan = true
  /\ computeStatsForSpanKind unicodeLower (span 0 0 "SERVER" (mkFlags false false false)) = true
  /\ computeStatsForSpanKind unicodeLower (span 0 0 "Producer" (mkFlags false false false)) = true
  /\ computeStatsForSpanKind unicodeLower (span 0 0 "cONSUMER" (mkFlags false false false)) = true
  /\ computeStatsForSpanKind unicodeLower internalSpan = false
  /\ computeStatsForSpanKind unicodeLower topSpan = false.
Proof. repeat split. Qed.

(** Scenario A: with 10-unit buckets and the watermark at 100, a span
    ending at 75 lands in the bucket at 100; a non-forced flush at 120
    exports that bucket and no bucket above 100. *)
Example scenario_A :
  exists c1 calls p c2,
    addTrace (trace [lateSpan]) started = Done (c1, calls)
    /\ hc_bucket <$> calls = [100]
    /\ flush 120 false c1 = Done (Some p, c2)
    /\ sw_flushed (sweep Export c1 120 false) = [100]
    /\ buckets c2 = ∅.
Proof. eexists _, _, _, _. repeat split. Qed.


(** C1 on [started]: the late span goes to the bucket at the watermark,
    the others to the floor of their end time; none is dropped. *)
Lemma addNow_bucket_timestamp_witness :
  exists c' calls,
    addTrace (trace [lateSpan; topSpan; clientSpan]) started = Done (c', calls)
    /\ hc_span <$> calls
       = filter (fun s => eligible started s = true) [lateSpan; topSpan; clientSpan]
    /\ Forall (fun call =>
                 hc_bucket call = specBucketTime started (hc_span call)
                 /\ is_Some (buckets c' !! hc_bucket call)) calls
    /\ c' = foldl (specAddSpan HasTopLevel NewRawBucket HandleSpan 1 "lambda" key "" [])
              started
              (filter (fun s => eligible started s = true)
                 [lateSpan; topSpan; clientSpan]).
Proof.
  apply (addNow_bucket_timestamp unicodeLower HasTopLevel IsMeasured
           IsPartialSnapshot weight NewRawBucket HandleSpan
           (trace [lateSpan; topSpan; clientSpan]) "" [] started).
  - simpl. lia.
  - simpl. lia.
Defined.

Example bucket_timestamp_eval :
  obind (addTrace (trace [lateSpan; topSpan; clientSpan]) started)
    (fun r => Done (List.map hc_bucket (snd r)))
  = Done [100; 100; 110].
Proof. reflexivity. Qed.

(** C5 on [started]: of five spans, the partial snapshot and the internal
    span are not handed over. *)
Lemma addNow_handles_eligible_witness :
  exists c' calls,
    addTrace (trace [lateSpan; partialSpan; topSpan; internalSpan; clientSpan]) started
      = Done (c', calls)
    /\ hc_span <$> calls
       = filter (fun s => eligible started s = true)
           [lateSpan; partialSpan; topSpan; internalSpan; clientSpan].
Proof.
  apply (addNow_handles_eligible unicodeLower HasTopLevel IsMeasured
           IsPartialSnapshot weight NewRawBucket HandleSpan
           (trace [lateSpan; partialSpan; topSpan; internalSpan; clientSpan])
           "" [] started).
  simpl. lia.
Defined.

Example eligible_eval :
  filter (fun s => eligible started s = true)
    [lateSpan; partialSpan; topSpan; internalSpan; clientSpan]
  = [lateSpan; topSpan; clientSpan].
Proof. reflexivity. Qed.

(** C2 on [loaded]: at 105 the bucket at 100 stays, as 100 > 105 - 2*10. *)
Lemma flush_retention_witness :
  exists p c',
    flush 105 false loaded = Done (Some p, c')
    /\ (forall ts b, buckets c' !! ts = Some b ->
          flushCutoff loaded 105 < ts /\ buckets loaded !! ts = Some b)
    /\ (forall ts, ts ∈ sw_flushed (sweep Export loaded 105 false) <->
          is_Some (buckets loaded !! ts) /\ buckets c' !! ts = None)
    /\ Forall (fun ts => ts <= flushCutoff loaded 105)
         (sw_flushed (sweep Export loaded 105 false)).
Proof. apply (flush_retention Export 105 loaded). simpl. lia. Defined.

Example flush_retention_eval :
  flushCutoff loaded 105 = 85
  /\ sw_flushed (sweep Export loaded 105 false) = []
  /\ sw_flushed (sweep Export loaded 125 false) = [100].
Proof. repeat split. Qed.

(** C8 fails as stated: after a non-forced flush at 105 that keeps the
    bucket at 100, a second non-forced flush at 125, with no ingestion in
    between, exports that bucket: its payload has one group. *)
Lemma consecutive_flushes_counterexample :
  exists p1 c1 p2 c2,
    flush 105 false loaded = Done (Some p1, c1)
    /\ flush 125 false c1 = Done (Some p2, c2)
    /\ pb.StatsPayload.Stats p1 = []
    /\ length (pb.StatsPayload.Stats p2) = 1%nat
    /\ pb.StatsPayload.Stats p2 <> [].
Proof.
  eexists _, _, _, _. split; [reflexivity|]. split; [reflexivity|].
  split; [reflexivity|]. split; [reflexivity|].
  intros Heq. apply (f_equal length) in Heq. exact (Nat.neq_succ_0 0 Heq).
Qed.

(** C8 as amended, on [loaded]: two non-forced flushes at 105. *)
Lemma second_flush_empty_witness :
  exists p1 c1 p2 c2,
    flush 105 false loaded = Done (Some p1, c1)
    /\ flush 105 false c1 = Done (Some p2, c2)
    /\ pb.StatsPayload.Stats p2 = []
    /\ buckets c2 = buckets c1.
Proof.
  apply (second_flush_empty Export 105 false 105 false loaded).
  - simpl. lia.
  - right. split; [reflexivity|]. discriminate.
Defined.

(** C4 on [loaded]: flushes at 125, 105 and 131 with an [Add] between. *)
Lemma watermark_monotone_witness :
  (exists c', runOps [OpFlush 125 false; OpFlush 105 true;
                      OpAdd (input [topSpan]); OpFlush 131 false] loaded = Done c'
              /\ oldestTs loaded <= oldestTs c')
  /\ exists p c' candidate,
       flush 125 false loaded = Done (Some p, c')
       /\ newOldestTs loaded 125 = Done candidate
       /\ oldestTs c' = (if oldestTs loaded <? candidate then candidate
                         else oldestTs loaded).
Proof.
  apply (watermark_monotone unicodeLower HasTopLevel IsMeasured IsPartialSnapshot
           weight NewRawBucket HandleSpan Export
           [OpFlush 125 false; OpFlush 105 true; OpAdd (input [topSpan]);
            OpFlush 131 false] 125 false loaded).
  simpl. lia.
Defined.

Example watermark_eval :
  (c' ← runOps [OpFlush 125 false; OpFlush 105 true;
                OpAdd (input [topSpan]); OpFlush 131 false] loaded;
   Done (oldestTs c'))
  = Done 120.
Proof. reflexivity. Qed.

(** C9 from [newConcentrator 103]. *)
Lemma bucket_keys_aligned_witness :
  exists c0 c,
    newConcentrator 103 = Done c0
    /\ runOps [OpAdd (input [lateSpan; topSpan; clientSpan]); OpFlush 127 false;
               OpAdd (input [topSpan]); OpFlush (-8) false] c0 = Done c
    /\ bsize c = config.AgentConfig.BucketInterval conf
    /\ aligned c0 /\ aligned c.
Proof.
  apply (bucket_keys_aligned unicodeLower HasTopLevel IsMeasured IsPartialSnapshot
           weight NewRawBucket HandleSpan Export defaultPeerTags conf 103
           [OpAdd (input [lateSpan; topSpan; clientSpan]); OpFlush 127 false;
            OpAdd (input [topSpan]); OpFlush (-8) false]).
  - simpl. unfold max_int64. lia.
  - unfold in_range, min_int64, max_int64. lia.
  - repeat constructor; simpl; unfold min_int64, max_int64; lia.
Defined.

(** C10 on [loaded], whose bucket width is positive. *)
Lemma flushNow_payload_witness :
  (exists p c',
     flush 105 false loaded = Done (Some p, c')
     /\ pb.StatsPayload.AgentHostname p = "agent-host"
     /\ pb.StatsPayload.AgentEnv p = "prod"
     /\ pb.StatsPayload.AgentVersion p = "7.50.0"
     /\ ((forall ts b, buckets loaded !! ts = Some b ->
            retained loaded 105 false ts = true) ->
         pb.StatsPayload.Stats p = []))
  /\ forall ticks exitClock,
       exists c' written,
         runLoop ticks exitClock loaded = Done (c', written)
         /\ length written = S (length ticks)
         /\ Forall (fun w => exists p,
                      w = Some p
                      /\ pb.StatsPayload.AgentHostname p = "agent-host"
                      /\ pb.StatsPayload.AgentEnv p = "prod"
                      /\ pb.StatsPayload.AgentVersion p = "7.50.0") written.
Proof.
  destruct (flushNow_payload Export 105 false loaded) as (Hflush & Hrun & _).
  - simpl. lia.
  - split; [exact Hflush|]. apply Hrun. simpl. lia.
Defined.

(** A concentrator with a negative bucket width: [Run] panics at once. *)
Example run_negative_width :
  runLoop [115; 125] 126
    (Concentrator.mk (-10) 100 2 ∅ "prod" "agent-host" "7.50.0" true true [])
  = Panic.
Proof. reflexivity. Qed.

Example run_eval :
  (r ← runLoop [115; 125] 126 loaded; Done (length r.2, buckets r.1))
  = Done (3%nat, ∅).
Proof. reflexivity. Qed.

End evaluation.

(** * Further properties *)

(** ** Alignment and construction *)

Section construction.

Context {D : Type}.
Variable defaultPeerTags : list string.

Local Abbreviation Conc := (Concentrator.t D).

(** X1.  For a bucket width other than zero, [alignTs] returns a multiple
    of the width that lies between zero and the timestamp, less than one
    width away from it, and aligning the result again changes nothing. *)
Theorem alignTs_truncates (ts bsize : Z) :
  in_range ts -> bsize <> 0 ->
  exists t,
    alignTs ts bsize = Done t
    /\ (bsize | t)
    /\ Z.abs (ts - t) < Z.abs bsize
    /\ (0 <= ts -> 0 <= t <= ts)
    /\ (ts <= 0 -> ts <= t <= 0)
    /\ alignTs t bsize = Done t.
Proof.
  intros Hts Hb. exists (ts - Z.rem ts bsize).
  rewrite alignTs_done, sub_rem_exact by done.
  destruct (rem_between ts bsize Hb) as [Hp Hn].
  pose proof (Z.rem_bound_abs ts bsize Hb) as Habs.
  pose proof (sub_rem_divide ts bsize Hb) as Hdiv.
  split; [done|]. split; [done|]. split; [|split; [|split]].
  - replace (ts - (ts - Z.rem ts bsize)) with (Z.rem ts bsize) by lia. done.
  - intros H0. specialize (Hp H0). lia.
  - intros H0. specialize (Hn H0). lia.
  - rewrite alignTs_done by done. f_equal.
    assert (Z.rem (ts - Z.rem ts bsize) bsize = 0) as Hr.
    { destruct Hdiv as [q ->]. apply Z.rem_mul. done. }
    rewrite Hr. unfold Int64.sub. rewrite Z.sub_0_r.
    apply wrap64_id. by apply sub_rem_in_range.
Qed.

(** [NewConcentrator] panics exactly on a zero bucket interval. *)
Lemma NewConcentrator_zero_interval conf now :
  NewConcentrator (D := D) defaultPeerTags conf now = Panic
  <-> config.AgentConfig.BucketInterval conf = 0.
Proof.
  unfold NewConcentrator, alignTs, rem64.
  destruct (Z.eqb_spec (config.AgentConfig.BucketInterval conf) 0) as [->|Hne];
    simpl; [done|]. split; [|done]. by destruct (_ || _).
Qed.

(** X2.  A concentrator created at [now] (at or after the epoch, with a
    positive bucket interval) holds no bucket, keeps [defaultBufferLen]
    buckets, and its watermark is the start of the bucket that contains
    [now]: only the current bucket is open at start. *)
Theorem NewConcentrator_window conf now :
  0 < config.AgentConfig.BucketInterval conf ->
  0 <= now <= max_int64 ->
  exists c : Conc,
    NewConcentrator defaultPeerTags conf now = Done c
    /\ buckets c = ∅
    /\ bsize c = config.AgentConfig.BucketInterval conf
    /\ bufferLen c = defaultBufferLen
    /\ (bsize c | oldestTs c)
    /\ oldestTs c <= now < oldestTs c + bsize c
    /\ agentEnv c = config.AgentConfig.DefaultEnv conf
    /\ agentHostname c = config.AgentConfig.Hostname conf
    /\ agentVersion c = config.AgentConfig.AgentVersion conf.
Proof.
  intros Hb Hnow.
  assert (in_range now) as Hr by (unfold in_range, min_int64, max_int64 in *; lia).
  unfold NewConcentrator. rewrite alignTs_done by lia. simpl.
  rewrite sub_rem_exact by (done || lia).
  pose proof (Z.rem_bound_pos now _ ltac:(lia) Hb) as Hrem.
  eexists. split; [reflexivity|].
  destruct (_ || _); simpl; repeat split; try lia; apply sub_rem_divide; lia.
Qed.

(** X3.  Without peer-tag aggregation (neither flag set) the concentrator
    has no peer-tag keys; with it, the keys are the default tags and the
    configured ones, each once, in ascending order. *)
Theorem NewConcentrator_peerTagKeys conf now :
  config.AgentConfig.BucketInterval conf <> 0 ->
  exists c : Conc,
    NewConcentrator defaultPeerTags conf now = Done c
    /\ peerTagsAggregation c
       = config.AgentConfig.PeerServiceAggregation conf
         || config.AgentConfig.PeerTagsAggregation conf
    /\ computeStatsBySpanKind c = config.AgentConfig.ComputeStatsBySpanKind conf
    /\ (peerTagsAggregation c = false -> peerTagKeys c = [])
    /\ (peerTagsAggregation c = true ->
          StronglySorted String.le (peerTagKeys c)
          /\ NoDup (peerTagKeys c)
          /\ forall t, t ∈ peerTagKeys c
                       <-> t ∈ defaultPeerTags \/ t ∈ config.AgentConfig.PeerTags conf).
Proof.
  intros Hb. unfold NewConcentrator. rewrite alignTs_done by done. simpl.
  eexists. split; [reflexivity|].
  destruct (_ || _); simpl; (split; [done|]); (split; [done|]); split; try done.
  intros _. split; [apply preparePeerTags_sorted|].
  split; [apply preparePeerTags_NoDup|].
  intros t. rewrite preparePeerTags_elem, elem_of_app. done.
Qed.

End construction.

(** ** More on the peer tags *)

Section peer_tags_more.
Import PeerTags.

(** [preparePeerTags] leaves a sorted list without duplicates as it is. *)
Lemma preparePeerTags_fixed (l : list string) :
  StronglySorted String.le l -> NoDup l -> preparePeerTags l = l.
Proof.
  intros Hs Hn.
  apply (StronglySorted_unique String.le); [apply preparePeerTags_sorted|done|].
  apply NoDup_Permutation; [apply preparePeerTags_NoDup|done|].
  apply preparePeerTags_elem.
Qed.

Lemma dedupLoop_length tags seen deduped :
  (length (foldl dedupStep (seen, deduped) tags).2 <= length deduped + length tags)%nat.
Proof.
  revert seen deduped. induction tags as [|t tags IH]; intros seen deduped.
  - simpl. lia.
  - change (foldl dedupStep (seen, deduped) (t :: tags))
      with (foldl dedupStep (dedupStep (seen, deduped) t) tags).
    unfold dedupStep at 2. cbn [length]. destruct (decide (t ∈ seen)).
    + specialize (IH seen deduped). lia.
    + specialize (IH ({[t]} ∪ seen) (deduped ++ [t])).
      rewrite length_app in IH. simpl in IH. lia.
Qed.

(** X4.  [preparePeerTags] is idempotent and never returns more tags than it
    was given. *)
Theorem preparePeerTags_idempotent (tags : list string) :
  preparePeerTags (preparePeerTags tags) = preparePeerTags tags
  /\ (length (preparePeerTags tags) <= length tags)%nat.
Proof.
  split.
  - apply preparePeerTags_fixed; [apply preparePeerTags_sorted|apply preparePeerTags_NoDup].
  - rewrite (preparePeerTags_perm tags).
    pose proof (dedupLoop_length tags ∅ []) as H. simpl in H. exact H.
Qed.

(** X5.  The result of [preparePeerTags] depends only on which tags occur in
    the input, not on how often or where. *)
Theorem preparePeerTags_same_tags (tags tags' : list string) :
  (forall t, t ∈ tags <-> t ∈ tags') ->
  preparePeerTags tags = preparePeerTags tags'.
Proof.
  intros Hsame.
  apply (StronglySorted_unique String.le); try apply preparePeerTags_sorted.
  apply NoDup_Permutation; try apply preparePeerTags_NoDup.
  intros t. rewrite !preparePeerTags_elem. apply Hsame.
Qed.

Lemma splitByte_nonempty sep s : splitByte sep s <> [].
Proof.
  destruct s as [|a r]; simpl; [done|].
  destruct (Ascii.eqb a sep); [done|]. by destruct (splitByte sep r).
Qed.

(** No piece of a split contains the separator. *)
Lemma splitByte_no_sep sep s t : t ∈ splitByte sep s -> hasByte sep t = false.
Proof.
  revert t. induction s as [|a r IH]; intros t; simpl.
  - by intros ->%list_elem_of_singleton.
  - destruct (Ascii.eqb a sep) eqn:Ha.
    + intros [->|Hin]%elem_of_cons; [done|]. by apply IH.
    + destruct (splitByte sep r) as [|w ws] eqn:Hs.
      * intros ->%list_elem_of_singleton. simpl. by rewrite Ha.
      * intros [->|Hin]%elem_of_cons.
        -- simpl. rewrite Ha. simpl. apply IH. apply list_elem_of_here.
        -- apply IH. by apply list_elem_of_further.
Qed.

(** Joining the pieces of a split gives the string back. *)
Lemma joinByte_splitByte sep s : joinByte sep (splitByte sep s) = s.
Proof.
  induction s as [|a r IH]; simpl; [done|].
  destruct (Ascii.eqb_spec a sep) as [->|Hne].
  - pose proof (splitByte_nonempty sep r) as Hne.
    destruct (splitByte sep r) as [|w ws]; [done|].
    simpl in *. by rewrite IH.
  - destruct (splitByte sep r) as [|w ws] eqn:Hs.
    + by apply splitByte_nonempty in Hs.
    + destruct ws; simpl in *; by rewrite <- IH.
Qed.

Lemma foldl_split_append (tags values : list string) :
  foldl (fun tags value => tags ++ splitByte comma value) tags values
  = tags ++ concat (splitByte comma <$> values).
Proof.
  revert tags. induction values as [|v values IH]; intros tags; simpl.
  - by rewrite app_nil_r.
  - rewrite IH. by rewrite <- app_assoc.
Qed.

(** X6.  The initializer of [defaultPeerTags] returns the seed tag alone
    when the catalog cannot be loaded; otherwise it returns, in ascending
    order, the seed tag and every comma-separated entry of every value of
    the section, duplicates included.  The seed tag is always present and
    no tag contains a comma. *)
Theorem initDefaultPeerTags_catalog (values : list string) :
  initDefaultPeerTags None = [baseServiceTag]
  /\ StronglySorted String.le (initDefaultPeerTags (Some values))
  /\ initDefaultPeerTags (Some values)
     ≡ₚ baseServiceTag :: concat (splitByte comma <$> values)
  /\ baseServiceTag ∈ initDefaultPeerTags (Some values)
  /\ forall t, t ∈ initDefaultPeerTags (Some values) -> hasByte comma t = false.
Proof.
  assert (initDefaultPeerTags (Some values)
          ≡ₚ baseServiceTag :: concat (splitByte comma <$> values)) as Hperm.
  { unfold initDefaultPeerTags, sortStrings.
    rewrite merge_sort_Permutation, foldl_split_append. done. }
  split; [done|]. split; [|split; [done|split]].
  - unfold initDefaultPeerTags, sortStrings. apply StronglySorted_merge_sort; apply _.
  - rewrite Hperm. apply list_elem_of_here.
  - intros t. rewrite Hperm. intros [->|Hin]%elem_of_cons; [reflexivity|].
    apply list_elem_of_In, in_concat in Hin as (l & Hl & Ht).
    apply list_elem_of_In, list_elem_of_fmap in Hl as (v & -> & _).
    apply (splitByte_no_sep comma v). by apply list_elem_of_In.
Qed.

End peer_tags_more.

(** ** More on ingestion *)

Section ingestion_more.

Context {Mx W CSB D : Type}.
Variable unicodeLower : string -> string.
Variables HasTopLevel IsMeasured IsPartialSnapshot : pb.Span.t Mx -> bool.
Variable weight : option (pb.Span.t Mx) -> W.
Variable NewRawBucket : Z -> Z -> RawBucket.t D.
Variable HandleSpan :
  RawBucket.t D -> pb.Span.t Mx -> W -> bool -> string ->
  PayloadAggregationKey.t -> bool -> list string -> RawBucket.t D.
Variable OrchestratorUnknown : string.
Variable maxChunks : Z.

Local Abbreviation Span := (pb.Span.t Mx).
Local Abbreviation Conc := (Concentrator.t D).
Local Abbreviation Call := (HandleSpanCall (Mx := Mx) (W := W)).
Local Abbreviation eligible :=
  (specEligible unicodeLower HasTopLevel IsMeasured IsPartialSnapshot).
Local Abbreviation addSpan' :=
  (addSpan unicodeLower HasTopLevel IsMeasured IsPartialSnapshot
     NewRawBucket HandleSpan).
Local Abbreviation addNow' :=
  (addNow unicodeLower HasTopLevel IsMeasured IsPartialSnapshot weight
     NewRawBucket HandleSpan).
Local Abbreviation Add' :=
  (Add unicodeLower HasTopLevel IsMeasured IsPartialSnapshot weight
     NewRawBucket HandleSpan).

(** X7.  [NewStatsInput] returns an input without traces and without
    container tags.  It carries the container ID exactly when the client
    did not compute the stats itself, container stats are enabled (by the
    feature [enable_cid_stats] or by a known Fargate orchestrator) and the
    feature [disable_cid_stats] is absent; otherwise the ID is empty.
    Adding the input as returned changes nothing.  The number of chunks is
    a capacity [make] accepts, unless the client computed the stats. *)
Theorem NewStatsInput_containerID numChunks containerID clientComputedStats conf :
  (clientComputedStats = false -> 0 <= numChunks <= maxChunks) ->
  exists input : Input.t Mx,
    NewStatsInput OrchestratorUnknown maxChunks numChunks containerID
      clientComputedStats conf = Done input
    /\ Input.Traces input = []
    /\ Input.ContainerTags input = []
    /\ Input.ContainerID input
       = (if negb clientComputedStats
             && (bool_decide ("enable_cid_stats" ∈ FeatureConfig.Features conf)
                 || negb (String.eqb (FeatureConfig.FargateOrchestrator conf)
                            OrchestratorUnknown))
             && negb (bool_decide ("disable_cid_stats" ∈ FeatureConfig.Features conf))
          then containerID else "")
    /\ forall c : Conc, Add unicodeLower HasTopLevel IsMeasured IsPartialSnapshot weight
      NewRawBucket HandleSpan input c = Done (c, []).
Proof.
  intros Hn. unfold NewStatsInput. destruct clientComputedStats.
  - eexists. split; [reflexivity|]. done.
  - specialize (Hn eq_refl).
    destruct (Z.ltb_spec numChunks 0); [lia|].
    destruct (Z.ltb_spec maxChunks numChunks); [lia|]. simpl.
    destruct (_ && _); eexists; (split; [reflexivity|]); done.
Qed.

(** A negative number of chunks panics, unless the client computed the
    stats. *)
Lemma NewStatsInput_negative numChunks containerID conf :
  numChunks < 0 ->
  NewStatsInput (Mx := Mx) OrchestratorUnknown maxChunks numChunks containerID
    false conf = Panic.
Proof.
  intros Hn. unfold NewStatsInput. by destruct (Z.ltb_spec numChunks 0); [|lia].
Qed.

(** A loop over a concatenation is the loop over the first part followed by
    the loop over the second. *)
Lemma rangeM_app {S X E : Type} (body : S -> X -> outcome (S * list E))
    (xs ys : list X) (st : S) :
  rangeM body (xs ++ ys) st
  = obind (rangeM body xs st) (fun r1 =>
      obind (rangeM body ys r1.1) (fun r2 => Done (r2.1, r1.2 ++ r2.2))).
Proof.
  revert st. induction xs as [|x xs IH]; intros st; simpl.
  - destruct (rangeM body ys st) as [[s2 e2]|]; done.
  - destruct (body st x) as [[s1 e1]|]; [|done]. simpl.
    rewrite IH. destruct (rangeM body xs s1) as [[s2 e2]|]; [|done]. simpl.
    destruct (rangeM body ys s2) as [[s3 e3]|]; [|done]. simpl.
    by rewrite app_assoc.
Qed.

(** X8.  Adding a batch of traces in one call is the same as adding a first
    part of the batch and then the rest, with the same container ID and
    tags: the same concentrator, the same calls of [HandleSpan] in the same
    order, and a panic in one case exactly when in the other. *)
Theorem Add_traces_app traces1 traces2 cid ctags (c : Conc) :
  Add unicodeLower HasTopLevel IsMeasured IsPartialSnapshot weight
      NewRawBucket HandleSpan (Input.mk (traces1 ++ traces2) cid ctags) c
  = obind (Add unicodeLower HasTopLevel IsMeasured IsPartialSnapshot weight
      NewRawBucket HandleSpan (Input.mk traces1 cid ctags) c) (fun r1 =>
      obind (Add unicodeLower HasTopLevel IsMeasured IsPartialSnapshot weight
      NewRawBucket HandleSpan (Input.mk traces2 cid ctags) r1.1) (fun r2 =>
        Done (r2.1, r1.2 ++ r2.2))).
Proof. unfold Add. simpl. apply rangeM_app. Qed.

Lemma addSpan_ineligible w origin aggKey cid ctags (c : Conc) (s : Span) :
  eligible c s = false -> addSpan' w origin aggKey cid ctags c s = Done (c, []).
Proof.
  rewrite eligible_branches. unfold addSpan.
  destruct (negb (HasTopLevel s || IsMeasured s || _)); [done|].
  destruct (IsPartialSnapshot s); done.
Qed.

Lemma rangeM_unchanged {S X E : Type} (body : S -> X -> outcome (S * list E))
    (xs : list X) (st : S) :
  Forall (fun x => body st x = Done (st, [])) xs -> rangeM body xs st = Done (st, []).
Proof.
  induction 1 as [|x xs Hx _ IH]; simpl; [done|]. rewrite Hx. simpl. by rewrite IH.
Qed.

(** X9.  An input none of whose spans is eligible (in particular an input
    without traces or without spans) leaves the concentrator exactly as it
    was and reaches no bucket, whatever the bucket width. *)
Theorem Add_ineligible_unchanged (t : Input.t Mx) (c : Conc) :
  Forall (fun pt =>
            Forall (fun s => specEligible unicodeLower HasTopLevel IsMeasured
                       IsPartialSnapshot c s = false)
              (pb.TraceChunk.Spans (traceutil.ProcessedTrace.TraceChunk pt)))
    (Input.Traces t) ->
  Add unicodeLower HasTopLevel IsMeasured IsPartialSnapshot weight
      NewRawBucket HandleSpan t c = Done (c, []).
Proof.
  intros Hall. unfold Add. apply rangeM_unchanged.
  eapply Forall_impl; [exact Hall|]. intros pt Hpt. simpl.
  unfold addNow. apply rangeM_unchanged.
  eapply Forall_impl; [exact Hpt|]. intros s Hs. simpl.
  by apply addSpan_ineligible.
Qed.

Lemma sameSettings_identity (c c' : Conc) :
  sameSettings c c' ->
  peerTagsAggregation c' = peerTagsAggregation c
  /\ peerTagKeys c' = peerTagKeys c
  /\ agentEnv c' = agentEnv c /\ agentHostname c' = agentHostname c
  /\ agentVersion c' = agentVersion c.
Proof. intros ->. done. Qed.

(** X10.  Every span [addNow] hands over goes with the same aggregation
    key: the tracer's environment and hostname, replaced by the agent's
    where empty, the application version, the container ID and the commit
    and image of the trace; with the weight of the root span, the origin of
    the chunk, the top-level flag of the span itself and the peer-tag
    settings of the concentrator. *)
Theorem addNow_call_arguments pt cid ctags (c : Conc) :
  bsize c <> 0 ->
  exists c' calls,
    addNow unicodeLower HasTopLevel IsMeasured IsPartialSnapshot weight
      NewRawBucket HandleSpan pt cid ctags c = Done (c', calls)
    /\ Forall (fun call : Call =>
                 hc_aggKey call = aggKeyOf c pt cid
                 /\ hc_weight call = weight (traceutil.ProcessedTrace.Root pt)
                 /\ hc_origin call
                    = pb.TraceChunk.Origin (traceutil.ProcessedTrace.TraceChunk pt)
                 /\ hc_isTop call = HasTopLevel (hc_span call)
                 /\ hc_peerTagsAggregation call = peerTagsAggregation c
                 /\ hc_peerTagKeys call = peerTagKeys c) calls.
Proof.
  intros Hb. unfold addNow.
  set (P := fun call : Call =>
         hc_aggKey call = aggKeyOf c pt cid
         /\ hc_weight call = weight (traceutil.ProcessedTrace.Root pt)
         /\ hc_origin call
            = pb.TraceChunk.Origin (traceutil.ProcessedTrace.TraceChunk pt)
         /\ hc_isTop call = HasTopLevel (hc_span call)
         /\ hc_peerTagsAggregation call = peerTagsAggregation c
         /\ hc_peerTagKeys call = peerTagKeys c).
  edestruct (rangeM_done
               (addSpan' (weight (traceutil.ProcessedTrace.Root pt))
                  (pb.TraceChunk.Origin (traceutil.ProcessedTrace.TraceChunk pt))
                  (aggKeyOf c pt cid) cid ctags)
               (fun (a b : Conc) (ev : list Call) => Forall P ev)
               (fun a => bsize a <> 0 /\ sameSettings c a))
    as (c' & calls & Hrun & Hcalls & _).
  - intros st. constructor.
  - intros a b d e1 e2 H1 H2. apply Forall_app. done.
  - intros st s [Hst Hs]. rewrite addSpan_done by done.
    destruct (sameSettings_identity _ _ Hs) as (Hpa & Hpk & _).
    destruct (eligible st s).
    + eexists _, _. split; [reflexivity|]. split.
      * repeat constructor; simpl; done.
      * split; [done|]. eapply sameSettings_trans; [exact Hs|]. by destruct st.
    + exists st, []. split; [done|]. split; [constructor|done].
  - split; [exact Hb|apply sameSettings_refl].
  - exists c', calls. split; [exact Hrun|exact Hcalls].
Qed.

(** What an ingestion step may touch: only the buckets of its calls. *)
Lemma addSpan_touches w origin aggKey cid ctags (c : Conc) (s : Span) :
  bsize c <> 0 ->
  exists c' calls,
    addSpan' w origin aggKey cid ctags c s = Done (c', calls)
    /\ (forall ts, (forall call : Call, call ∈ calls -> hc_bucket call <> ts) ->
          buckets c' !! ts = buckets c !! ts)
    /\ bsize c' <> 0.
Proof.
  intros Hb. rewrite addSpan_done by done. destruct (eligible c s).
  - eexists _, _. split; [reflexivity|]. split; [|done].
    intros ts Hts. simpl. apply lookup_insert_ne.
    specialize (Hts _ (list_elem_of_here _ _)). exact Hts.
  - exists c, []. done.
Qed.

Lemma touches_trans (a b d : Conc) (e1 e2 : list Call) :
  (forall ts, (forall call : Call, call ∈ e1 -> hc_bucket call <> ts) ->
     buckets b !! ts = buckets a !! ts) ->
  (forall ts, (forall call : Call, call ∈ e2 -> hc_bucket call <> ts) ->
     buckets d !! ts = buckets b !! ts) ->
  forall ts, (forall call : Call, call ∈ e1 ++ e2 -> hc_bucket call <> ts) ->
    buckets d !! ts = buckets a !! ts.
Proof.
  intros H1 H2 ts Hts. rewrite H2, H1; [done|..];
    intros call Hin; apply Hts, elem_of_app; auto.
Qed.

(** X11.  [Add] changes no bucket other than those its spans are handed to:
    every other key of the bucket map keeps its bucket, and a key absent
    before stays absent.  The watermark, the bucket width and the buffer
    length are as before. *)
Theorem Add_touches_only_its_buckets (t : Input.t Mx) (c : Conc) :
  bsize c <> 0 ->
  exists c' calls,
    Add unicodeLower HasTopLevel IsMeasured IsPartialSnapshot weight
      NewRawBucket HandleSpan t c = Done (c', calls)
    /\ (forall ts, (forall call : Call, call ∈ calls -> hc_bucket call <> ts) ->
          buckets c' !! ts = buckets c !! ts)
    /\ oldestTs c' = oldestTs c /\ bsize c' = bsize c /\ bufferLen c' = bufferLen c.
Proof.
  intros Hb.
  destruct (Add_ingested unicodeLower HasTopLevel IsMeasured IsPartialSnapshot
              weight NewRawBucket HandleSpan t c Hb)
    as (c1 & calls1 & Hrun1 & (Hs & _) & _).
  destruct (sameSettings_fields _ _ Hs) as (Hbs & Hos & Hbl & _).
  edestruct (rangeM_done
               (fun c trace =>
                  addNow' trace (Input.ContainerID t) (Input.ContainerTags t) c)
               (fun (a b : Conc) (ev : list Call) =>
                  forall ts, (forall call : Call, call ∈ ev -> hc_bucket call <> ts) ->
                    buckets b !! ts = buckets a !! ts)
               (fun a => bsize a <> 0)) with (xs := Input.Traces t) (st := c)
    as (c' & calls & Hrun & Htouch & _).
  - done.
  - apply touches_trans.
  - intros st pt Hst. unfold addNow.
    apply (rangeM_done _
             (fun (a b : Conc) (ev : list Call) =>
                forall ts, (forall call : Call, call ∈ ev -> hc_bucket call <> ts) ->
                  buckets b !! ts = buckets a !! ts)
             (fun a => bsize a <> 0)); [done|apply touches_trans| |exact Hst].
    intros st' s. apply addSpan_touches.
  - exact Hb.
  - unfold Add in Hrun1. rewrite Hrun in Hrun1. injection Hrun1 as <- <-.
    exists c', calls. done.
Qed.

End ingestion_more.

(** ** More on flushing: the groups of the payload *)

Section flushing_more.

Context {CSB D : Type}.
Variable Export : RawBucket.t D -> gmap PayloadAggregationKey.t CSB.

Local Abbreviation Key := PayloadAggregationKey.t.
Local Abbreviation Conc := (Concentrator.t D).
Local Abbreviation Bucket := (RawBucket.t D).
Local Abbreviation recs := (recordsFor Export).

Implicit Types (c : Conc) (now ts : Z) (force : bool) (k : Key).

(** The export loop over entries with distinct keys appends one record to
    the list of each exported key and leaves the other lists alone. *)
Lemma exportFold_m (srb : Bucket) (l : list (Key * CSB)) m tags k :
  NoDup l.*1 ->
  (foldl (exportStep srb) (m, tags) l).1 !! k
  = match (list_to_map l : gmap Key CSB) !! k with
    | Some b => Some (default [] (m !! k) ++ [b])
    | None => m !! k
    end.
Proof.
  revert m tags. induction l as [|[k0 b0] l IH]; intros m tags Hnd; [done|].
  apply NoDup_cons in Hnd as [Hk0 Hnd].
  change (foldl (exportStep srb) (m, tags) ((k0, b0) :: l))
    with (foldl (exportStep srb) (exportStep srb (m, tags) (k0, b0)) l).
  unfold exportStep at 2. rewrite IH by done. simpl.
  destruct (decide (k = k0)) as [->|Hne].
  - rewrite lookup_insert_eq.
    rewrite (not_elem_of_list_to_map_1 (M := gmap Key) l k0) by done.
    by rewrite lookup_insert_eq.
  - rewrite !lookup_insert_ne by done. done.
Qed.

Lemma sweepStep_m c now force st ts (srb : Bucket) k :
  retained c now force ts = false ->
  sw_m (sweepStep Export c now force st (ts, srb)) !! k
  = match Export srb !! k with
    | Some b => Some (default [] (sw_m st !! k) ++ [b])
    | None => sw_m st !! k
    end.
Proof.
  intros Hret. unfold sweepStep. rewrite Hret.
  pose proof (exportFold_m srb (map_to_list (Export srb)) (sw_m st)
                (sw_containerTagsByID st) k (NoDup_fst_map_to_list _)) as H.
  rewrite list_to_map_to_list in H.
  destruct (foldl _ _ _) as [m' tags']. exact H.
Qed.

(** The result map of the sweep: under each key, the records exported by
    the flushed buckets, in sweep order, after what was there. *)
Lemma sweep_m_fold c now force (entries : list (Z * Bucket)) st k :
  sw_m (foldl (sweepStep Export c now force) st entries) !! k
  = match recs k (filter (fun e => retained c now force e.1 = false) entries) with
    | [] => sw_m st !! k
    | r :: rs => Some (default [] (sw_m st !! k) ++ r :: rs)
    end.
Proof.
  revert st. induction entries as [|[t srb] entries IH]; intros st; [done|].
  change (foldl (sweepStep Export c now force) st ((t, srb) :: entries))
    with (foldl (sweepStep Export c now force)
            (sweepStep Export c now force st (t, srb)) entries).
  rewrite IH, filter_cons. cbn [fst].
  destruct (retained c now force t) eqn:Hret.
  - destruct (decide (true = false)) as [?|_]; [done|].
    by rewrite sweepStep_retained.
  - destruct (decide (false = false)) as [_|?]; [|done].
    rewrite sweepStep_m by done. unfold recordsFor. cbn [omap list_omap snd].
    fold (recs k (filter (fun e => retained c now force e.1 = false) entries)).
    destruct (Export srb !! k) as [b|]; [|done].
    destruct (recs k _) as [|r rs]; simpl; [done|].
    by rewrite <- app_assoc.
Qed.

Lemma sweep_m c now force k :
  sw_m (sweep Export c now force) !! k
  = match recs k (flushedEntries c now force) with
    | [] => None
    | r :: rs => Some (r :: rs)
    end.
Proof.
  unfold sweep, sweepOver, flushedEntries. rewrite sweep_m_fold. simpl.
  rewrite lookup_empty. done.
Qed.

Lemma groupKey_assemble (m : gmap Key (list CSB)) tags :
  groupKey <$> assemble m tags = (map_to_list m).*1.
Proof.
  unfold assemble. rewrite <- list_fmap_compose. apply list_fmap_ext.
  intros _ [[] s] _. done.
Qed.

(** A key has records exactly when some exported bucket reports it. *)
Lemma recordsFor_nonempty k (entries : list (Z * Bucket)) :
  recs k entries <> [] <-> exists e, e ∈ entries /\ is_Some (Export e.2 !! k).
Proof.
  unfold recordsFor. split.
  - intros Hne. destruct (omap _ entries) as [|r rs] eqn:Hr; [done|].
    assert (r ∈ omap (fun e => Export e.2 !! k) entries) as Hin
      by (rewrite Hr; apply list_elem_of_here).
    apply list_elem_of_omap in Hin as (e & He & Hl). eauto.
  - intros (e & He & [r Hr]) Hnil.
    assert (r ∈ omap (fun e => Export e.2 !! k) entries) as Hin
      by (apply list_elem_of_omap; eauto).
    rewrite Hnil in Hin. by apply elem_of_nil in Hin.
Qed.

(** [flushNow] is the sweep in the order of [map_to_list]. *)
Lemma flushNow_flushNowIn now force c :
  flushNow Export now force c
  = flushNowIn Export (map_to_list (buckets c)) now force c.
Proof. reflexivity. Qed.

(** A flush in any sweep order returns whenever the bucket width is not
    zero. *)
Lemma flushNowIn_done (entries : list (Z * Bucket)) now force c :
  bsize c <> 0 ->
  exists cand,
    newOldestTs c now = Done cand
    /\ flushNowIn Export entries now force c
       = Done (Some (pb.StatsPayload.mk
                       (assemble (sw_m (sweepOver Export c now force entries))
                          (sw_containerTagsByID (sweepOver Export c now force entries)))
                       (agentHostname c) (agentEnv c) (agentVersion c)),
               advance (setBuckets c (sw_buckets (sweepOver Export c now force entries)))
                 cand).
Proof.
  intros Hb. eexists. split; [by apply newOldestTs_done|].
  unfold flushNowIn.
  change (newOldestTs (setBuckets c _) now) with (newOldestTs c now).
  rewrite newOldestTs_done by done. simpl.
  by destruct (advance_fields
                 (setBuckets c (sw_buckets (sweepOver Export c now force entries)))
                 (Int64.sub (Int64.sub now (Z.rem now (bsize c)))
                    (Int64.mul (Int64.sub (bufferLen c) 1) (bsize c))))
    as (_ & _ & _ & _ & -> & -> & ->).
Qed.

Lemma sweepOver_m (entries : list (Z * Bucket)) c now force k :
  sw_m (sweepOver Export c now force entries) !! k
  = match recs k (flushedIn c now force entries) with
    | [] => None
    | r :: rs => Some (r :: rs)
    end.
Proof.
  unfold sweepOver, flushedIn. rewrite sweep_m_fold. simpl.
  rewrite lookup_empty. done.
Qed.

(** Whatever the order of the sweep, the exported entries are the entries
    of the map that fail the retention test. *)
Lemma flushedIn_perm (entries : list (Z * Bucket)) c now force :
  entries ≡ₚ map_to_list (buckets c) ->
  flushedIn c now force entries ≡ₚ flushedEntries c now force.
Proof. unfold flushedIn, flushedEntries. by intros ->. Qed.

Lemma flushedIn_elem (entries : list (Z * Bucket)) c now force ts (b : Bucket) :
  entries ≡ₚ map_to_list (buckets c) ->
  (ts, b) ∈ flushedIn c now force entries
  <-> buckets c !! ts = Some b /\ retained c now force ts = false.
Proof.
  intros Hperm. rewrite (flushedIn_perm entries c now force Hperm).
  unfold flushedEntries. rewrite list_elem_of_filter, elem_of_map_to_list. simpl. tauto.
Qed.

(** The groups of the payload of a flush in the sweep order [entries]. *)
Lemma flushNowIn_groups (entries : list (Z * Bucket)) now force c :
  bsize c <> 0 -> entries ≡ₚ map_to_list (buckets c) ->
  exists p c',
    flushNowIn Export entries now force c = Done (Some p, c')
    /\ buckets c' = sw_buckets (sweep Export c now force)
    /\ NoDup (groupKey <$> pb.StatsPayload.Stats p)
    /\ (forall k, k ∈ groupKey <$> pb.StatsPayload.Stats p
                  <-> exists ts b, buckets c !! ts = Some b
                                   /\ retained c now force ts = false
                                   /\ is_Some (Export b !! k))
    /\ (forall g, g ∈ pb.StatsPayload.Stats p ->
          pb.ClientStatsPayload.Stats g
          = recordsFor Export (groupKey g) (flushedIn c now force entries)).
Proof.
  intros Hb Hperm.
  destruct (flushNowIn_done entries now force c Hb) as (cand & _ & Hrun).
  eexists _, _. split; [exact Hrun|]. split.
  { destruct (advance_fields
                (setBuckets c (sw_buckets (sweepOver Export c now force entries))) cand)
      as (_ & _ & -> & _). simpl.
    by destruct (sweepOver_order Export c now force entries Hperm) as [-> _]. }
  cbn [pb.StatsPayload.Stats].
  rewrite groupKey_assemble. split; [apply NoDup_fst_map_to_list|]. split.
  - intros k.
    assert (k ∈ (map_to_list (sw_m (sweepOver Export c now force entries))).*1
            <-> recs k (flushedIn c now force entries) <> []) as ->.
    { rewrite list_elem_of_fmap. split.
      - intros ([k' s] & -> & Hin%elem_of_map_to_list). simpl in *.
        rewrite sweepOver_m in Hin. by destruct (recs k' _).
      - intros Hne. destruct (recs k _) as [|r rs] eqn:Hr; [done|].
        exists (k, r :: rs). split; [done|]. apply elem_of_map_to_list.
        by rewrite sweepOver_m, Hr. }
    rewrite recordsFor_nonempty. split.
    + intros ([ts b] & Hin & Hk). apply flushedIn_elem in Hin as [? ?]; [|done].
      exists ts, b. done.
    + intros (ts & b & Hl & Hret & Hk). exists (ts, b). split; [|done].
      by apply flushedIn_elem.
  - intros g. unfold assemble. rewrite list_elem_of_fmap.
    intros ([k s] & -> & Hin%elem_of_map_to_list). simpl.
    rewrite sweepOver_m in Hin.
    replace (groupKey _) with k by (by destruct k).
    destruct (recs k _); congruence.
Qed.

(** X12.  Whatever the order in which the sweep meets the buckets, the
    payload of a flush has one group per aggregation key that some exported
    bucket reports, and no two groups for the same key; the [Stats] of a
    group are the records the exported buckets report under its key, one
    per such bucket, in the order of the sweep, hence a permutation of the
    records of the exported entries of the map. *)
Theorem flush_payload_groups (entries : list (Z * RawBucket.t D)) now force c :
  bsize c <> 0 -> entries ≡ₚ map_to_list (buckets c) ->
  exists p c',
    flushNowIn Export entries now force c = Done (Some p, c')
    /\ NoDup (groupKey <$> pb.StatsPayload.Stats p)
    /\ (forall k, k ∈ groupKey <$> pb.StatsPayload.Stats p
                  <-> exists ts b, buckets c !! ts = Some b
                                   /\ retained c now force ts = false
                                   /\ is_Some (Export b !! k))
    /\ (forall g, g ∈ pb.StatsPayload.Stats p ->
          pb.ClientStatsPayload.Stats g
          = recordsFor Export (groupKey g) (flushedIn c now force entries)
          /\ pb.ClientStatsPayload.Stats g
             ≡ₚ recordsFor Export (groupKey g) (flushedEntries c now force))
    /\ flushNow Export now force c
       = flushNowIn Export (map_to_list (buckets c)) now force c.
Proof.
  intros Hb Hperm.
  destruct (flushNowIn_groups entries now force c Hb Hperm)
    as (p & c' & Hrun & _ & Hnd & Hkeys & Hstats).
  exists p, c'. split; [exact Hrun|]. split; [exact Hnd|]. split; [exact Hkeys|].
  split; [|reflexivity].
  intros g Hg. split; [by apply Hstats|].
  rewrite (Hstats g Hg). unfold recordsFor.
  by rewrite (flushedIn_perm entries c now force Hperm).
Qed.

(** C3.  A forced flush exports every bucket of the map, whatever its
    timestamp and whatever the order of the sweep, and leaves the map
    empty: every bucket goes through the export branch, the payload has a
    group for exactly the aggregation keys the buckets of the map report,
    the [Stats] of a group are the records of all the buckets under its
    key, and every record of every bucket is in the payload. *)
Theorem forced_flush_drains (entries : list (Z * RawBucket.t D)) now c :
  bsize c <> 0 -> entries ≡ₚ map_to_list (buckets c) ->
  exists p c',
    flushNowIn Export entries now true c = Done (Some p, c')
    /\ buckets c' = ∅
    /\ sw_flushed (sweepOver Export c now true entries) = entries.*1
    /\ NoDup (groupKey <$> pb.StatsPayload.Stats p)
    /\ (forall k, k ∈ groupKey <$> pb.StatsPayload.Stats p
                  <-> exists ts b, buckets c !! ts = Some b /\ is_Some (Export b !! k))
    /\ (forall g, g ∈ pb.StatsPayload.Stats p ->
          pb.ClientStatsPayload.Stats g = recordsFor Export (groupKey g) entries)
    /\ (forall ts b k r,
          buckets c !! ts = Some b -> Export b !! k = Some r ->
          exists g, g ∈ pb.StatsPayload.Stats p /\ groupKey g = k
                    /\ r ∈ pb.ClientStatsPayload.Stats g)
    /\ flushNow Export now true c
       = flushNowIn Export (map_to_list (buckets c)) now true c.
Proof.
  intros Hb Hperm.
  destruct (flushNowIn_groups entries now true c Hb Hperm)
    as (p & c' & Hrun & Hbk & Hnd & Hkeys & Hstats).
  assert (flushedIn c now true entries = entries) as Hall.
  { unfold flushedIn. clear. induction entries as [|e l IH]; [done|].
    rewrite filter_cons. simpl. by rewrite IH. }
  rewrite Hall in Hstats.
  assert (forall k, k ∈ groupKey <$> pb.StatsPayload.Stats p
                    <-> exists ts b, buckets c !! ts = Some b
                                     /\ is_Some (Export b !! k)) as Hkeys'.
  { intros k. rewrite Hkeys. split.
    - intros (ts & b & ? & _ & ?). eauto.
    - intros (ts & b & ? & ?). exists ts, b. done. }
  exists p, c'. split; [exact Hrun|]. split.
  { rewrite Hbk. apply map_eq. intros ts. by rewrite sweep_buckets, lookup_empty. }
  split.
  { unfold sweepOver.
    destruct (sweep_fold Export c now true entries (mkSweep ∅ ∅ (buckets c) []))
      as [-> _]. simpl. unfold flushedOf. clear.
    induction (entries.*1) as [|t l IH]; [done|].
    rewrite filter_cons. simpl. by rewrite IH. }
  split; [exact Hnd|]. split; [exact Hkeys'|]. split; [exact Hstats|].
  split; [|reflexivity].
  intros ts b k r Hl Hr.
  assert (k ∈ groupKey <$> pb.StatsPayload.Stats p) as Hin
    by (apply Hkeys'; exists ts, b; by rewrite Hr).
  apply list_elem_of_fmap in Hin as (g & -> & Hg).
  exists g. split; [done|]. split; [done|].
  rewrite (Hstats g Hg). unfold recordsFor. apply list_elem_of_omap.
  exists (ts, b). split; [|done].
  rewrite Hperm. by apply elem_of_map_to_list.
Qed.

(** The side table of container tags after the export loop over [l]: the
    entry of [id] is the old one when no key of [l] with that container ID
    finds tags in the bucket, and the bucket's tags for [id] otherwise. *)
Lemma exportFold_tags (srb : Bucket) (l : list (Key * CSB)) m tags id :
  let tags' := (foldl (exportStep srb) (m, tags) l).2 in
  (tags' !! id = tags !! id
   /\ forall kb, kb ∈ l -> PayloadAggregationKey.ContainerID kb.1 = id ->
         RawBucket.containerTagsByID srb !! id = None)
  \/ ((exists kb, kb ∈ l /\ PayloadAggregationKey.ContainerID kb.1 = id)
      /\ is_Some (RawBucket.containerTagsByID srb !! id)
      /\ tags' !! id = RawBucket.containerTagsByID srb !! id).
Proof.
  revert m tags. induction l as [|[k0 b0] l IH]; intros m tags.
  - left. split; [done|]. by intros kb Hin%elem_of_nil.
  - change (foldl (exportStep srb) (m, tags) ((k0, b0) :: l))
      with (foldl (exportStep srb) (exportStep srb (m, tags) (k0, b0)) l).
    unfold exportStep at 2.
    destruct (IH (<[k0 := default [] (m !! k0) ++ [b0]]> m)
                (match RawBucket.containerTagsByID srb
                         !! PayloadAggregationKey.ContainerID k0 with
                 | Some ctags => <[PayloadAggregationKey.ContainerID k0 := ctags]> tags
                 | None => tags
                 end))
      as [[Heq Hno]|((kb & Hin & Hid) & Hsome & Heq)]; cbv zeta in *.
    + rewrite Heq.
      destruct (decide (PayloadAggregationKey.ContainerID k0 = id)) as [<-|Hne].
      * destruct (RawBucket.containerTagsByID srb !! _) as [ct|] eqn:Hct.
        -- right. split; [exists (k0, b0); split; [apply list_elem_of_here|done]|].
           split; [done|]. by rewrite lookup_insert_eq.
        -- left. split; [done|]. intros kb _ _. first [done|exact Hct].
      * left. split.
        -- destruct (RawBucket.containerTagsByID srb
                       !! PayloadAggregationKey.ContainerID k0); [|done].
           by rewrite lookup_insert_ne.
        -- intros kb [->|Hin]%elem_of_cons Hid; [simpl in Hid; done|].
           by apply (Hno kb).
    + right. split; [|done]. exists kb. split; [|done]. by apply list_elem_of_further.
Qed.

Lemma sweepStep_tags c now force st ts (srb : Bucket) id :
  retained c now force ts = false ->
  let tags' := sw_containerTagsByID (sweepStep Export c now force st (ts, srb)) in
  (tags' !! id = sw_containerTagsByID st !! id /\ ~ tagsSource Export id (ts, srb))
  \/ (tagsSource Export id (ts, srb)
      /\ tags' !! id = RawBucket.containerTagsByID srb !! id).
Proof.
  intros Hret. unfold sweepStep. rewrite Hret.
  pose proof (exportFold_tags srb (map_to_list (Export srb)) (sw_m st)
                (sw_containerTagsByID st) id) as H.
  destruct (foldl _ _ _) as [m' tags']. cbv zeta in *. simpl in *.
  destruct H as [[Heq Hno]|((kb & Hin & Hid) & Hsome & Heq)].
  - left. split; [done|]. intros [[ct Hct] (k & [b Hk] & Hid)]. simpl in *.
    rewrite (Hno (k, b)) in Hct; [done| |done]. by apply elem_of_map_to_list.
  - right. split; [|done]. split; [done|]. destruct kb as [k b].
    apply elem_of_map_to_list in Hin. exists k. split; [by exists b|done].
Qed.

(** The side table after the sweep: for each container ID, the tags of one
    of the exported buckets that can supply them, or the old entry when
    there is no such bucket. *)
Lemma sweep_tags_fold c now force (entries : list (Z * Bucket)) st id :
  let r := foldl (sweepStep Export c now force) st entries in
  let flushed := filter (fun e => retained c now force e.1 = false) entries in
  (sw_containerTagsByID r !! id = sw_containerTagsByID st !! id
   /\ forall e, e ∈ flushed -> ~ tagsSource Export id e)
  \/ exists e, e ∈ flushed /\ tagsSource Export id e
               /\ sw_containerTagsByID r !! id = RawBucket.containerTagsByID e.2 !! id.
Proof.
  revert st. induction entries as [|[t srb] entries IH]; intros st.
  - left. split; [done|]. by intros e Hin%elem_of_nil.
  - change (foldl (sweepStep Export c now force) st ((t, srb) :: entries))
      with (foldl (sweepStep Export c now force)
              (sweepStep Export c now force st (t, srb)) entries).
    cbv zeta. rewrite filter_cons. cbn [fst].
    specialize (IH (sweepStep Export c now force st (t, srb))). cbv zeta in IH.
    destruct (retained c now force t) eqn:Hret.
    + destruct (decide (true = false)) as [?|_]; [done|].
      by rewrite sweepStep_retained in * by done.
    + destruct (decide (false = false)) as [_|?]; [|done].
      destruct IH as [[Heq Hno]|(e & Hin & Hsrc & Heq)].
      * destruct (sweepStep_tags c now force st t srb id Hret)
          as [[Heq1 Hno1]|[Hsrc1 Heq1]]; cbv zeta in *.
        -- left. split; [etrans; [exact Heq|exact Heq1]|].
           intros e [->|Hin]%elem_of_cons; [done|by apply Hno].
        -- right. exists (t, srb). split; [apply list_elem_of_here|].
           split; [done|]. etrans; [exact Heq|exact Heq1].
      * right. exists e. split; [by apply list_elem_of_further|done].
Qed.

(** X13.  Whatever the order of the sweep, the container tags of a group of
    the payload are empty when no exported bucket can supply tags for the
    container ID of the group; otherwise they are the tags that one of the
    exported buckets holds for that container ID (which may be an empty
    list), that bucket reporting a key with this container ID. *)
Theorem flush_payload_tags (entries : list (Z * RawBucket.t D)) now force c :
  bsize c <> 0 -> entries ≡ₚ map_to_list (buckets c) ->
  exists p c',
    flushNowIn Export entries now force c = Done (Some p, c')
    /\ forall g, g ∈ pb.StatsPayload.Stats p ->
         (pb.ClientStatsPayload.Tags g = []
          /\ forall e, e ∈ flushedEntries c now force ->
                ~ tagsSource Export (pb.ClientStatsPayload.ContainerID g) e)
         \/ exists e, e ∈ flushedEntries c now force
                      /\ tagsSource Export (pb.ClientStatsPayload.ContainerID g) e
                      /\ RawBucket.containerTagsByID e.2
                           !! pb.ClientStatsPayload.ContainerID g
                         = Some (pb.ClientStatsPayload.Tags g).
Proof.
  intros Hb Hperm.
  destruct (flushNowIn_done entries now force c Hb) as (cand & _ & Hrun).
  eexists _, _. split; [exact Hrun|]. cbn [pb.StatsPayload.Stats].
  intros g. unfold assemble. rewrite list_elem_of_fmap.
  intros ([k s] & -> & _). simpl.
  pose proof (sweep_tags_fold c now force entries
                (mkSweep ∅ ∅ (buckets c) []) (PayloadAggregationKey.ContainerID k))
    as H.
  cbv zeta in H. fold (sweepOver Export c now force entries) in H.
  fold (flushedIn c now force entries) in H.
  pose proof (flushedIn_perm entries c now force Hperm) as Hfl.
  destruct H as [[Heq Hno]|(e & Hin & Hsrc & Heq)].
  - left. split; [by rewrite Heq; simpl; rewrite lookup_empty|].
    intros e He. apply Hno. by rewrite Hfl.
  - right. exists e. split; [by rewrite <- Hfl|]. split; [done|].
    rewrite Heq. destruct Hsrc as [[ct Hct] _]. by rewrite Hct.
Qed.

End flushing_more.

(** ** More on the watermark *)

Section watermark_more.

Context {Mx W CSB D : Type}.
Variable unicodeLower : string -> string.
Variables HasTopLevel IsMeasured IsPartialSnapshot : pb.Span.t Mx -> bool.
Variable weight : option (pb.Span.t Mx) -> W.
Variable NewRawBucket : Z -> Z -> RawBucket.t D.
Variable HandleSpan :
  RawBucket.t D -> pb.Span.t Mx -> W -> bool -> string ->
  PayloadAggregationKey.t -> bool -> list string -> RawBucket.t D.
Variable Export : RawBucket.t D -> gmap PayloadAggregationKey.t CSB.
Variable defaultPeerTags : list string.

Local Abbreviation Conc := (Concentrator.t D).
Local Abbreviation Call := (HandleSpanCall (Mx := Mx) (W := W)).
Local Abbreviation Add' :=
  (Add unicodeLower HasTopLevel IsMeasured IsPartialSnapshot weight
     NewRawBucket HandleSpan).
Local Abbreviation step' :=
  (step unicodeLower HasTopLevel IsMeasured IsPartialSnapshot weight
     NewRawBucket HandleSpan Export).
Local Abbreviation run' :=
  (run unicodeLower HasTopLevel IsMeasured IsPartialSnapshot weight
     NewRawBucket HandleSpan Export).

(** The clamp: no span is handed to a bucket below the watermark. *)
Lemma codeBucketTime_ge (c : Conc) (s : pb.Span.t Mx) :
  oldestTs c <= codeBucketTime c s.
Proof.
  unfold codeBucketTime. cbv zeta.
  destruct (_ <? oldestTs c) eqn:E; [lia|]. apply Z.ltb_ge in E. lia.
Qed.

(** The retention threshold of a concentrator with the default buffer
    length. *)
Lemma flushCutoff_default (c : Conc) now :
  0 < bsize c -> 2 * bsize c <= max_int64 -> bufferLen c = defaultBufferLen ->
  min_int64 + 2 * bsize c <= now <= max_int64 ->
  flushCutoff c now = now - 2 * bsize c.
Proof.
  intros Hb Hb2 Hl Hn. rewrite flushCutoff_exact; rewrite Hl; unfold defaultBufferLen;
    unfold in_range, min_int64, max_int64 in *; lia.
Qed.

(** X14.  What a non-forced flush exports lies strictly below the watermark
    it leaves, and the watermark never comes back: whatever calls of [Add]
    and [Flush] follow, no span is ever handed to a bucket with the
    timestamp of an exported one.  The concentrator has the default buffer
    length and twice the bucket width fits an [int64]; the clock reading is
    at least two bucket widths above the least [int64]. *)
Theorem exported_buckets_stay_closed now (c : Conc) (ops : list Op) (t : Input.t Mx) :
  0 < bsize c -> 2 * bsize c <= max_int64 -> bufferLen c = defaultBufferLen ->
  min_int64 + 2 * bsize c <= now <= max_int64 ->
  exists p c1 c2 c3 calls,
    flushNow Export now false c = Done (Some p, c1)
    /\ Forall (fun ts => ts < oldestTs c1) (sw_flushed (sweep Export c now false))
    /\ run unicodeLower HasTopLevel IsMeasured IsPartialSnapshot weight
      NewRawBucket HandleSpan Export ops c1 = Done c2
    /\ Add unicodeLower HasTopLevel IsMeasured IsPartialSnapshot weight
      NewRawBucket HandleSpan t c2 = Done (c3, calls)
    /\ Forall (fun call : Call =>
                 Forall (fun ts => ts < hc_bucket call)
                   (sw_flushed (sweep Export c now false))) calls.
Proof.
  intros Hb Hb2 Hl Hn.
  destruct (flushNow_done Export now false c ltac:(lia)) as (cand & Hcand & Hrun).
  rewrite newOldestTs_default in Hcand
    by (done || unfold min_int64, max_int64 in *; lia).
  injection Hcand as <-.
  set (c1 := advance _ _) in Hrun.
  destruct (advance_fields (setBuckets c (sw_buckets (sweep Export c now false)))
              (now - Z.rem now (bsize c) - bsize c))
    as (Hbs1 & _ & _ & Ho1 & _). fold c1 in Hbs1, Ho1. simpl in Hbs1, Ho1.
  assert (Forall (fun ts => ts < oldestTs c1) (sw_flushed (sweep Export c now false)))
    as Hbelow.
  { rewrite sweep_flushed. apply Forall_forall. intros ts.
    unfold flushedOf. rewrite list_elem_of_filter. intros [Hret _].
    unfold retained in Hret. simpl in Hret. apply Z.ltb_ge in Hret.
    rewrite flushCutoff_default in Hret by done.
    pose proof (Z.rem_bound_abs now (bsize c) ltac:(lia)) as Habs.
    rewrite Ho1. destruct (Z.ltb_spec (oldestTs c) (now - Z.rem now (bsize c) - bsize c));
      lia. }
  destruct (run_watermark unicodeLower HasTopLevel IsMeasured IsPartialSnapshot
              weight NewRawBucket HandleSpan Export ops c1 ltac:(lia))
    as (c2 & Hrun2 & Hbs2 & Hle2).
  destruct (Add_ingested unicodeLower HasTopLevel IsMeasured IsPartialSnapshot
              weight NewRawBucket HandleSpan t c2 ltac:(lia))
    as (c3 & calls & Hadd & (_ & Hcalls & _) & _).
  eexists _, c1, c2, c3, calls.
  split; [exact Hrun|]. split; [exact Hbelow|]. split; [exact Hrun2|].
  split; [exact Hadd|].
  eapply Forall_impl; [exact Hcalls|]. intros call [-> _].
  eapply Forall_impl; [exact Hbelow|]. intros ts Hts. simpl in Hts.
  pose proof (codeBucketTime_ge c2 (hc_span call)). lia.
Qed.

End watermark_more.

(** ** More invariants of the bucket store *)

Section store_invariants.

Context {Mx W CSB D : Type}.
Variable unicodeLower : string -> string.
Variables HasTopLevel IsMeasured IsPartialSnapshot : pb.Span.t Mx -> bool.
Variable weight : option (pb.Span.t Mx) -> W.
Variable NewRawBucket : Z -> Z -> RawBucket.t D.
Variable HandleSpan :
  RawBucket.t D -> pb.Span.t Mx -> W -> bool -> string ->
  PayloadAggregationKey.t -> bool -> list string -> RawBucket.t D.
Variable Export : RawBucket.t D -> gmap PayloadAggregationKey.t CSB.
Variable defaultPeerTags : list string.

Local Abbreviation Conc := (Concentrator.t D).
Local Abbreviation step' :=
  (step unicodeLower HasTopLevel IsMeasured IsPartialSnapshot weight
     NewRawBucket HandleSpan Export).
Local Abbreviation run' :=
  (run unicodeLower HasTopLevel IsMeasured IsPartialSnapshot weight
     NewRawBucket HandleSpan Export).

(** A retained bucket of an aligned store is not below the watermark
    candidate of the flush. *)
Lemma retained_above_candidate (B now ts : Z) :
  0 < B -> 0 <= now -> (B | ts) -> now - 2 * B < ts ->
  now - Z.rem now B - B <= ts.
Proof.
  intros HB Hnow [q ->] Hlt.
  pose proof (Z.rem_bound_pos now B Hnow HB) as Hr.
  destruct (sub_rem_divide now B ltac:(lia)) as [z Hz].
  rewrite Hz. assert (z - 2 < q) by nia. nia.
Qed.

(** One operation keeps every bucket at or above the watermark. *)
Lemma step_aboveWatermark (c : Conc) (o : Op) :
  0 < bsize c -> 2 * bsize c <= max_int64 -> bufferLen c = defaultBufferLen ->
  clockAfterEpoch o -> aligned c -> aboveWatermark c ->
  exists c', step' c o = Done c' /\ bsize c' = bsize c
             /\ bufferLen c' = bufferLen c /\ aligned c' /\ aboveWatermark c'.
Proof.
  intros Hb Hb2 Hl Hclock Hal Habove.
  destruct (step_aligned unicodeLower HasTopLevel IsMeasured IsPartialSnapshot
              weight NewRawBucket HandleSpan Export c o)
    as (c' & Hstep & Hbs & Hbl & Hal'); [unfold max_int64 in *; lia|done| |done|].
  { destruct o; [done|]. simpl in *. unfold min_int64, max_int64 in *. lia. }
  exists c'. split; [done|]. split; [done|]. split; [done|]. split; [done|].
  destruct o as [t|clock force]; simpl in Hstep, Hclock.
  - destruct (Add_ingested unicodeLower HasTopLevel IsMeasured IsPartialSnapshot
                weight NewRawBucket HandleSpan t c ltac:(lia))
      as (c1 & calls & Hadd & (Hs & Hcalls & _ & Hnew) & _).
    rewrite Hadd in Hstep. simpl in Hstep. injection Hstep as <-.
    destruct (sameSettings_fields _ _ Hs) as (_ & Hos & _).
    intros ts b Hlk. rewrite Hos.
    destruct (Hnew ts ltac:(eauto)) as [[b0 Hold]|(call & Hin & <-)].
    + by eapply Habove.
    + rewrite Forall_forall in Hcalls. destruct (Hcalls call Hin) as [-> _].
      apply codeBucketTime_ge.
  - unfold Flush in Hstep.
    destruct (flushNow_done Export clock force c ltac:(lia)) as (cand & Hcand & Hrun).
    rewrite Hrun in Hstep. simpl in Hstep. injection Hstep as <-.
    rewrite newOldestTs_default in Hcand
      by (done || unfold min_int64, max_int64 in *; lia).
    injection Hcand as <-.
    destruct (advance_fields
                (setBuckets c (sw_buckets (sweep Export c clock force)))
                (clock - Z.rem clock (bsize c) - bsize c))
      as (_ & _ & Hbk & Hos & _). simpl in Hbk, Hos.
    intros ts b. rewrite Hbk, Hos, sweep_buckets.
    destruct (retained c clock force ts) eqn:Hret; [|done].
    intros Hlk. pose proof (Habove ts b Hlk) as Hold.
    destruct (Z.ltb_spec (oldestTs c) (clock - Z.rem clock (bsize c) - bsize c));
      [|done].
    unfold retained in Hret. apply andb_prop in Hret as [_ Hret%Z.ltb_lt].
    rewrite flushCutoff_default in Hret
      by (done || unfold min_int64, max_int64 in *; lia).
    destruct Hal as [_ Hkeys].
    apply retained_above_candidate; [lia|lia|by eapply Hkeys|done].
Qed.

(** X15.  In every state reached from [NewConcentrator] by [Add] and [Flush]
    calls, no bucket of the map lies below the watermark: a flush that
    raises the watermark keeps no bucket older than it.  The clock readings
    are at or after the epoch and twice the bucket width fits an
    [int64]. *)
Theorem buckets_above_watermark conf now0 (ops : list Op) :
  0 < config.AgentConfig.BucketInterval conf ->
  2 * config.AgentConfig.BucketInterval conf <= max_int64 ->
  0 <= now0 <= max_int64 ->
  Forall clockAfterEpoch ops ->
  exists c0 c : Conc,
    NewConcentrator defaultPeerTags conf now0 = Done c0
    /\ run unicodeLower HasTopLevel IsMeasured IsPartialSnapshot weight
      NewRawBucket HandleSpan Export ops c0 = Done c
    /\ aboveWatermark c.
Proof.
  intros Hb Hb2 Hnow Hops.
  set (B := config.AgentConfig.BucketInterval conf) in *.
  assert (in_range now0) as Hr by (unfold in_range, min_int64, max_int64 in *; lia).
  assert (exists c0 : Conc,
            NewConcentrator defaultPeerTags conf now0 = Done c0
            /\ bsize c0 = B /\ bufferLen c0 = defaultBufferLen
            /\ aligned c0 /\ aboveWatermark c0)
    as (c0 & Hnew & Hbs & Hbl & Hal & Hab).
  { unfold NewConcentrator. fold B. rewrite alignTs_done by lia. simpl.
    eexists. split; [reflexivity|].
    destruct (_ || _); simpl; (split; [done|]); (split; [done|]); split;
      try (split; simpl;
           [rewrite sub_rem_exact by (done || lia); apply sub_rem_divide; lia
           |intros ts b; by rewrite lookup_empty]);
      intros ts b; simpl; by rewrite lookup_empty. }
  exists c0. rewrite Hnew.
  assert (exists c, run' ops c0 = Done c /\ aboveWatermark c)
    as (c & Hrun & Hc); [|by exists c].
  clear Hnew. revert c0 Hbs Hbl Hal Hab.
  induction Hops as [|o ops Ho _ IH]; intros c0 Hbs Hbl Hal Hab.
  - exists c0. done.
  - destruct (step_aboveWatermark c0 o) as (c1 & Hstep & Hbs1 & Hbl1 & Hal1 & Hab1);
      [lia|lia|done|done|done|done|].
    destruct (IH c1) as (c & Hrun & Hc); [congruence|congruence|done|done|].
    exists c. simpl. rewrite Hstep. done.
Qed.

(** X16.  With a positive bucket width, [Run] ends with an empty bucket map,
    whatever the schedule: the forced flush at exit leaves nothing behind.
    The watermark has not decreased and the bucket width is as before. *)
Theorem Run_drains ticks exitClock (c : Conc) :
  0 < bsize c ->
  exists c' written,
    Run Export ticks exitClock c = Done (c', written)
    /\ buckets c' = ∅
    /\ oldestTs c <= oldestTs c'
    /\ bsize c' = bsize c.
Proof.
  intros Hpos. assert (bsize c <> 0) as Hb by lia.
  destruct (rangeM_done
              (fun c clock => '(p, c') ← Flush Export clock false c; Done (c', [p]))
              (fun (a b : Conc) (ws : list (option (pb.StatsPayload.t CSB))) =>
                 bsize b = bsize a /\ oldestTs a <= oldestTs b)
              (fun a => bsize a <> 0)) with (xs := ticks) (st := c)
    as (c1 & written & Hloop & (Hbs1 & Hle1) & Hb1).
  - intros st. split; [done|lia].
  - intros a b d e1 e2 [? ?] [? ?]. split; [congruence|lia].
  - intros st clock Hst. unfold Flush.
    destruct (flushNow_done Export clock false st Hst) as (cand & _ & ->).
    eexists _, _. simpl. split; [reflexivity|].
    destruct (advance_fields
                (setBuckets st (sw_buckets (sweep Export st clock false))) cand)
      as (Hbs & _ & _ & Hos & _). simpl in Hbs, Hos.
    rewrite Hbs, Hos. split; [|done].
    split; [done|]. destruct (Z.ltb_spec (oldestTs st) cand); lia.
  - exact Hb.
  - unfold Run. destruct (Z.leb_spec (bsize c) 0) as [?|_]; [lia|].
    rewrite Hloop. simpl. unfold Flush.
    destruct (flushNow_done Export exitClock true c1 Hb1) as (cand & _ & ->).
    eexists _, _. simpl. split; [reflexivity|].
    destruct (advance_fields
                (setBuckets c1 (sw_buckets (sweep Export c1 exitClock true))) cand)
      as (Hbs & _ & Hbk & Hos & _). simpl in Hbs, Hbk, Hos.
    rewrite Hbs, Hbk, Hos. split; [|split; [|congruence]].
    + apply map_eq. intros ts. by rewrite sweep_buckets, lookup_empty.
    + destruct (Z.ltb_spec (oldestTs c1) cand); lia.
Qed.

End store_invariants.

(** ** A flush loses no bucket *)

Section flush_partition.

Context {CSB D : Type}.
Variable Export : RawBucket.t D -> gmap PayloadAggregationKey.t CSB.

Local Abbreviation Conc := (Concentrator.t D).
Local Abbreviation Bucket := (RawBucket.t D).

Lemma flushedEntries_spec (c : Conc) now force ts (b : Bucket) :
  (ts, b) ∈ flushedEntries c now force
  <-> buckets c !! ts = Some b /\ retained c now force ts = false.
Proof.
  unfold flushedEntries. rewrite list_elem_of_filter, elem_of_map_to_list. simpl. tauto.
Qed.

(** X17.  A flush splits the bucket map in two: every bucket that was in the
    map is afterwards either still in the map, unchanged, or among the
    exported entries, never both and never neither; nothing else is in the
    map or exported, and no timestamp is exported twice. *)
Theorem flush_partitions_buckets now force (c : Conc) :
  bsize c <> 0 ->
  exists p c',
    flushNow Export now force c = Done (Some p, c')
    /\ (forall ts b,
          buckets c !! ts = Some b
          <-> buckets c' !! ts = Some b \/ (ts, b) ∈ flushedEntries c now force)
    /\ (forall ts b, (ts, b) ∈ flushedEntries c now force -> buckets c' !! ts = None)
    /\ NoDup (flushedEntries c now force).*1
    /\ (flushedEntries c now force).*1 = sw_flushed (sweep Export c now force).
Proof.
  intros Hb. destruct (flushNow_done Export now force c Hb) as (cand & _ & Hrun).
  eexists _, _. split; [exact Hrun|].
  destruct (advance_fields (setBuckets c (sw_buckets (sweep Export c now force))) cand)
    as (_ & _ & -> & _). simpl.
  split; [|split; [|split]].
  - intros ts b. rewrite sweep_buckets, flushedEntries_spec.
    destruct (retained c now force ts); split.
    + auto.
    + intros [?|[_ ?]]; done.
    + auto.
    + intros [?|[? _]]; done.
  - intros ts b [_ Hret]%flushedEntries_spec. by rewrite sweep_buckets, Hret.
  - unfold flushedEntries.
    pose proof (NoDup_fst_map_to_list (buckets c)) as Hnd.
    induction (map_to_list (buckets c)) as [|[t b] l IH]; [constructor|].
    apply NoDup_cons in Hnd as [Ht Hnd]. rewrite filter_cons.
    destruct (decide _) as [Hd|Hd]; [|by apply IH].
    rewrite fmap_cons. apply NoDup_cons. split; [|by apply IH].
    intros Hin. apply Ht. apply list_elem_of_fmap in Hin as (x & Hx & Hin).
    apply list_elem_of_filter in Hin as [_ Hin].
    apply list_elem_of_fmap. by exists x.
  - rewrite sweep_flushed. unfold flushedEntries, flushedOf.
    induction (map_to_list (buckets c)) as [|[t b] l IH]; [done|].
    rewrite fmap_cons, !filter_cons. cbn [fst].
    destruct (decide (retained c now force t = false)); [|done].
    rewrite fmap_cons. cbn [fst]. by rewrite IH.
Qed.

End flush_partition.

(** ** The further properties on concrete inputs *)

Section evaluation_more.
Import Sample.

Example splitByte_eval :
  splitByte comma "peer.service,db.instance,,x" = ["peer.service"; "db.instance"; ""; "x"]
  /\ splitByte comma "" = [""].
Proof. split; reflexivity. Qed.

Example initDefaultPeerTags_eval :
  initDefaultPeerTags (Some ["peer.service,out.host"; "db.instance,db.system"])
  = ["_dd.base_service"; "db.instance"; "db.system"; "out.host"; "peer.service"].
Proof. vm_compute. reflexivity. Qed.

Lemma alignTs_truncates_witness :
  exists t,
    alignTs (-25) 10 = Done t
    /\ (10 | t)
    /\ Z.abs (-25 - t) < Z.abs 10
    /\ (0 <= -25 -> 0 <= t <= -25)
    /\ (-25 <= 0 -> -25 <= t <= 0)
    /\ alignTs t 10 = Done t.
Proof.
  apply (alignTs_truncates (-25) 10).
  - unfold in_range, min_int64, max_int64. lia.
  - lia.
Defined.

Lemma NewConcentrator_window_witness :
  exists c : Concentrator.t Counts,
    newConcentrator 103 = Done c
    /\ buckets c = ∅
    /\ oldestTs c <= 103 < oldestTs c + bsize c.
Proof.
  destruct (NewConcentrator_window (D := Counts) defaultPeerTags conf 103)
    as (c & Hnew & Hempty & _ & _ & _ & Hwin & _).
  - simpl. lia.
  - unfold max_int64. lia.
  - exists c. split; [exact Hnew|]. split; [exact Hempty|exact Hwin].
Defined.

Lemma NewConcentrator_peerTagKeys_witness :
  exists c : Concentrator.t Counts,
    newConcentrator 103 = Done c
    /\ (peerTagsAggregation c = true ->
          StronglySorted String.le (peerTagKeys c)
          /\ NoDup (peerTagKeys c)
          /\ forall t, t ∈ peerTagKeys c
                       <-> t ∈ defaultPeerTags \/ t ∈ config.AgentConfig.PeerTags conf).
Proof.
  destruct (NewConcentrator_peerTagKeys (D := Counts) defaultPeerTags conf 103)
    as (c & Hnew & _ & _ & _ & Hkeys).
  - simpl. lia.
  - exists c. split; [exact Hnew|exact Hkeys].
Defined.

Lemma preparePeerTags_same_tags_witness :
  PeerTags.preparePeerTags ["peer.service"; "db.instance"; "peer.service"]
  = PeerTags.preparePeerTags ["db.instance"; "peer.service"].
Proof.
  apply preparePeerTags_same_tags. intros t.
  rewrite !elem_of_cons, !elem_of_nil. tauto.
Defined.

Lemma NewStatsInput_containerID_witness :
  exists input : Input.t Flags,
    NewStatsInput "Unknown" 1000 3 "cid-1" false
      (FeatureConfig.mk {[ "enable_cid_stats" ]} "Unknown") = Done input
    /\ Input.Traces input = []
    /\ forall c : Concentrator.t Counts, add input c = Done (c, []).
Proof.
  destruct (NewStatsInput_containerID (D := Counts) unicodeLower HasTopLevel IsMeasured
              IsPartialSnapshot weight NewRawBucket HandleSpan "Unknown" 1000 3 "cid-1"
              false (FeatureConfig.mk {[ "enable_cid_stats" ]} "Unknown"))
    as (input & Hnew & Htr & _ & _ & Hadd).
  - intros _. lia.
  - exists input. split; [exact Hnew|]. split; [exact Htr|exact Hadd].
Defined.

Example NewStatsInput_eval :
  NewStatsInput (Mx := Flags) "Unknown" 1000 3 "cid-1" false
    (FeatureConfig.mk {[ "enable_cid_stats" ]} "Unknown")
  = Done (Input.mk [] "cid-1" [])
  /\ NewStatsInput (Mx := Flags) "Unknown" 1000 3 "cid-1" false
       (FeatureConfig.mk {[ "enable_cid_stats"; "disable_cid_stats" ]} "ECS")
     = Done (Input.mk [] "" [])
  /\ NewStatsInput (Mx := Flags) "Unknown" 1000 3 "cid-1" false
       (FeatureConfig.mk ∅ "ECS")
     = Done (Input.mk [] "cid-1" [])
  /\ NewStatsInput (Mx := Flags) "Unknown" 1000 (-1) "cid-1" true
       (FeatureConfig.mk ∅ "ECS")
     = Done (Input.mk [] "" [])
  /\ NewStatsInput (Mx := Flags) "Unknown" 1000 (-1) "cid-1" false
       (FeatureConfig.mk ∅ "ECS")
     = Panic.
Proof. repeat split. Qed.

Lemma Add_ineligible_unchanged_witness :
  add (input [partialSpan; internalSpan]) loaded = Done (loaded, []).
Proof.
  apply (Add_ineligible_unchanged unicodeLower HasTopLevel IsMeasured
           IsPartialSnapshot weight NewRawBucket HandleSpan
           (input [partialSpan; internalSpan]) loaded).
  repeat constructor.
Defined.

Lemma addNow_call_arguments_witness :
  exists c' calls,
    addTrace (trace [lateSpan; topSpan]) started = Done (c', calls)
    /\ Forall (fun call => hc_aggKey call = key /\ hc_origin call = "lambda") calls.
Proof.
  destruct (addNow_call_arguments unicodeLower HasTopLevel IsMeasured
              IsPartialSnapshot weight NewRawBucket HandleSpan
              (trace [lateSpan; topSpan]) "" [] started)
    as (c' & calls & Hrun & Hcalls).
  - simpl. lia.
  - exists c', calls. split; [exact Hrun|].
    eapply Forall_impl; [exact Hcalls|]. intros call (Hk & _ & Ho & _).
    split; [exact Hk|exact Ho].
Defined.

Lemma Add_touches_only_its_buckets_witness :
  exists c' calls,
    add (input [clientSpan]) loaded = Done (c', calls)
    /\ (forall ts, (forall call, call ∈ calls -> hc_bucket call <> ts) ->
          buckets c' !! ts = buckets loaded !! ts)
    /\ oldestTs c' = oldestTs loaded.
Proof.
  destruct (Add_touches_only_its_buckets unicodeLower HasTopLevel IsMeasured
              IsPartialSnapshot weight NewRawBucket HandleSpan
              (input [clientSpan]) loaded)
    as (c' & calls & Hrun & Htouch & Hos & _).
  - simpl. lia.
  - exists c', calls. split; [exact Hrun|]. split; [exact Htouch|exact Hos].
Defined.

Lemma flush_payload_groups_witness :
  exists p c',
    flushNowIn Export (map_to_list (buckets loaded)) 125 false loaded = Done (Some p, c')
    /\ NoDup (groupKey <$> pb.StatsPayload.Stats p)
    /\ forall g, g ∈ pb.StatsPayload.Stats p ->
         pb.ClientStatsPayload.Stats g
         = recordsFor Export (groupKey g)
             (flushedIn loaded 125 false (map_to_list (buckets loaded)))
         /\ pb.ClientStatsPayload.Stats g
            ≡ₚ recordsFor Export (groupKey g) (flushedEntries loaded 125 false).
Proof.
  destruct (flush_payload_groups Export (map_to_list (buckets loaded)) 125 false loaded)
    as (p & c' & Hrun & Hnd & _ & Hstats & _).
  - simpl. lia.
  - reflexivity.
  - exists p, c'. split; [exact Hrun|]. split; [exact Hnd|exact Hstats].
Defined.

Example flush_payload_groups_eval :
  obind (flush 125 false loaded)
    (fun r => Done (pb.ClientStatsPayload.Stats <$> (from_option pb.StatsPayload.Stats [] r.1)))
  = Done [[mkStat 100 10 1]].
Proof. reflexivity. Qed.

Example twoBuckets_reached :
  obind (add (input [topSpan; clientSpan]) started) (fun r => Done r.1)
  = Done Sample2.twoBuckets.
Proof. reflexivity. Qed.

(** The records of a group follow the order of the sweep: the two orders
    of the buckets of [twoBuckets] give the two orders of the records. *)
Example sweep_order_eval :
  obind (flushNowIn Export [(100, Sample2.bucketAt 100); (110, Sample2.bucketAt 110)]
           135 false Sample2.twoBuckets)
    (fun r => Done (pb.ClientStatsPayload.Stats <$> (from_option pb.StatsPayload.Stats [] r.1)))
  = Done [[mkStat 100 10 1; mkStat 110 10 1]]
  /\ obind (flushNowIn Export [(110, Sample2.bucketAt 110); (100, Sample2.bucketAt 100)]
              135 false Sample2.twoBuckets)
       (fun r => Done (pb.ClientStatsPayload.Stats <$> (from_option pb.StatsPayload.Stats [] r.1)))
     = Done [[mkStat 110 10 1; mkStat 100 10 1]].
Proof. split; reflexivity. Qed.

Lemma twoBuckets_entries :
  [(110, Sample2.bucketAt 110); (100, Sample2.bucketAt 100)]
  ≡ₚ map_to_list (buckets Sample2.twoBuckets).
Proof.
  unfold Sample2.twoBuckets. simpl.
  rewrite map_to_list_insert by (by apply lookup_singleton_ne).
  by rewrite map_to_list_singleton.
Qed.

(** C3 on [twoBuckets], the sweep meeting the bucket at 110 first: a forced
    flush at 105 exports both buckets and leaves the map empty. *)
Lemma forced_flush_drains_witness :
  exists p c',
    flushNowIn Export [(110, Sample2.bucketAt 110); (100, Sample2.bucketAt 100)]
      105 true Sample2.twoBuckets = Done (Some p, c')
    /\ buckets c' = ∅
    /\ (forall g, g ∈ pb.StatsPayload.Stats p ->
          pb.ClientStatsPayload.Stats g
          = recordsFor Export (groupKey g)
              [(110, Sample2.bucketAt 110); (100, Sample2.bucketAt 100)])
    /\ forall ts b k r,
         buckets Sample2.twoBuckets !! ts = Some b -> Export b !! k = Some r ->
         exists g, g ∈ pb.StatsPayload.Stats p /\ groupKey g = k
                   /\ r ∈ pb.ClientStatsPayload.Stats g.
Proof.
  destruct (forced_flush_drains Export
              [(110, Sample2.bucketAt 110); (100, Sample2.bucketAt 100)]
              105 Sample2.twoBuckets)
    as (p & c' & Hrun & Hempty & _ & _ & _ & Hstats & Hall & _).
  - simpl. lia.
  - exact twoBuckets_entries.
  - exists p, c'. split; [exact Hrun|]. split; [exact Hempty|].
    split; [exact Hstats|exact Hall].
Defined.

Example forced_flush_eval :
  obind (flushNowIn Export [(110, Sample2.bucketAt 110); (100, Sample2.bucketAt 100)]
           105 true Sample2.twoBuckets)
    (fun r => Done (pb.ClientStatsPayload.Stats <$> (from_option pb.StatsPayload.Stats [] r.1),
                    buckets r.2))
  = Done ([[mkStat 110 10 1; mkStat 100 10 1]], ∅).
Proof. reflexivity. Qed.

Lemma flush_payload_tags_witness :
  exists p c',
    flushNowIn Export (map_to_list (buckets loaded)) 125 false loaded = Done (Some p, c')
    /\ forall g, g ∈ pb.StatsPayload.Stats p ->
         (pb.ClientStatsPayload.Tags g = []
          /\ forall e, e ∈ flushedEntries loaded 125 false ->
                ~ tagsSource Export (pb.ClientStatsPayload.ContainerID g) e)
         \/ exists e, e ∈ flushedEntries loaded 125 false
                      /\ tagsSource Export (pb.ClientStatsPayload.ContainerID g) e
                      /\ RawBucket.containerTagsByID e.2
                           !! pb.ClientStatsPayload.ContainerID g
                         = Some (pb.ClientStatsPayload.Tags g).
Proof.
  apply (flush_payload_tags Export (map_to_list (buckets loaded)) 125 false loaded).
  - simpl. lia.
  - reflexivity.
Defined.

Lemma exported_buckets_stay_closed_witness :
  exists p c1 c2 c3 calls,
    flush 125 false loaded = Done (Some p, c1)
    /\ Forall (fun ts => ts < oldestTs c1) (sw_flushed (sweep Export loaded 125 false))
    /\ runOps [OpFlush 105 true] c1 = Done c2
    /\ add (input [topSpan; lateSpan]) c2 = Done (c3, calls)
    /\ Forall (fun call =>
                 Forall (fun ts => ts < hc_bucket call)
                   (sw_flushed (sweep Export loaded 125 false))) calls.
Proof.
  apply (exported_buckets_stay_closed unicodeLower HasTopLevel IsMeasured
           IsPartialSnapshot weight NewRawBucket HandleSpan Export 125 loaded
           [OpFlush 105 true] (input [topSpan; lateSpan])).
  - simpl. lia.
  - simpl. unfold max_int64. lia.
  - reflexivity.
  - simpl. unfold min_int64, max_int64. lia.
Defined.

Example exported_buckets_stay_closed_eval :
  sw_flushed (sweep Export loaded 125 false) = [100]
  /\ obind (flush 125 false loaded)
       (fun r => obind (add (input [topSpan; lateSpan]) r.2)
          (fun r' => Done (List.map hc_bucket r'.2)))
     = Done [110; 110].
Proof. split; reflexivity. Qed.

Lemma buckets_above_watermark_witness :
  exists c0 c,
    newConcentrator 103 = Done c0
    /\ runOps [OpAdd (input [lateSpan; topSpan; clientSpan]); OpFlush 127 false;
               OpAdd (input [topSpan]); OpFlush 8 false] c0 = Done c
    /\ aboveWatermark c.
Proof.
  apply (buckets_above_watermark unicodeLower HasTopLevel IsMeasured IsPartialSnapshot
           weight NewRawBucket HandleSpan Export defaultPeerTags conf 103
           [OpAdd (input [lateSpan; topSpan; clientSpan]); OpFlush 127 false;
            OpAdd (input [topSpan]); OpFlush 8 false]).
  - simpl. lia.
  - simpl. unfold max_int64. lia.
  - unfold max_int64. lia.
  - repeat constructor; simpl; unfold max_int64; lia.
Defined.

Lemma Run_drains_witness :
  exists c' written,
    runLoop [115; 125] 126 loaded = Done (c', written)
    /\ buckets c' = ∅
    /\ oldestTs loaded <= oldestTs c'
    /\ bsize c' = bsize loaded.
Proof. apply (Run_drains Export [115; 125] 126 loaded). simpl. lia. Defined.

Lemma flush_partitions_buckets_witness :
  exists p c',
    flush 125 false loaded = Done (Some p, c')
    /\ (forall ts b,
          buckets loaded !! ts = Some b
          <-> buckets c' !! ts = Some b \/ (ts, b) ∈ flushedEntries loaded 125 false)
    /\ (forall ts b, (ts, b) ∈ flushedEntries loaded 125 false -> buckets c' !! ts = None)
    /\ NoDup (flushedEntries loaded 125 false).*1
    /\ (flushedEntries loaded 125 false).*1 = sw_flushed (sweep Export loaded 125 false).
Proof. apply (flush_partitions_buckets Export 125 false loaded). simpl. lia. Defined.

End evaluation_more.
